(** * Prompt generation and selection of [bikeshare.py]

    A shallow embedding of the option-prompt engine of [bikeshare.py]
    ([abbreviate_initial], [generate_city_prompts], [generate_name_prompts],
    [build_options], [show_prompt]) together with the properties its
    specification states about it.

    Python values are modelled as follows.
    - [str] is [string], a sequence of characters of a fixed alphabet;
      [s[:n]] is [slice_to n s], [s.find(sub)] is
      [find sub s] (an integer, [-1] when absent), [s.split(' ')] is
      [split " " s], [sep.join(l)] is [String.concat sep l].
    - [dict] is an association list without repeated keys kept in insertion
      order, as Python iterates it: [d[k] = v] is [dict_set k v d], which
      overwrites in place or appends; [k in d] is [dict_mem k d].
    - [None] stored in a dictionary of names is [None : option string].
    - A raised exception is [Err e]; a normal return is [Ok v].
    - [input] reads the next line of a list of pending lines and raises
      [EOFError] when none is left. *)

From Stdlib Require Import String Ascii List ZArith Lia Bool Arith.
Import ListNotations.
Open Scope string_scope.
Open Scope list_scope.

(** ** Results and exceptions *)

Inductive exn : Type :=
| IndexError
| KeyError (key : string)
| UnboundLocalError (variable : string)
| EOFError
| Exception (message : string).

Inductive result (A : Type) : Type :=
| Ok (value : A)
| Err (e : exn).
Arguments Ok {A} value.
Arguments Err {A} e.

Definition bind {A B : Type} (r : result A) (f : A -> result B) : result B :=
  match r with
  | Ok a => f a
  | Err e => Err e
  end.

Notation "x <- r ;; k" := (bind r (fun x => k))
  (at level 61, r at next level, right associativity).
Notation "' p <- r ;; k" := (bind r (fun p => k))
  (at level 61, p pattern, r at next level, right associativity).

(** [[f(x) for x in xs]]: evaluated left to right, the first exception wins. *)
Fixpoint comprehension {A B : Type} (f : A -> result B) (xs : list A) : result (list B) :=
  match xs with
  | [] => Ok []
  | x :: xs' =>
      y <- f x ;;
      ys <- comprehension f xs' ;;
      Ok (y :: ys)
  end.

(** ** Strings *)

(** [s[:n]]: the first [n] characters, the whole string when it is shorter. *)
Fixpoint slice_to (n : nat) (s : string) : string :=
  match n, s with
  | S n', String c s' => String c (slice_to n' s')
  | _, _ => EmptyString
  end.

(** [s.startswith(p)]. *)
Fixpoint startswith (p s : string) : bool :=
  match p, s with
  | EmptyString, _ => true
  | String a p', String b s' => Ascii.eqb a b && startswith p' s'
  | String _ _, EmptyString => false
  end.

Fixpoint find_from (sub s : string) (i : nat) : option nat :=
  if startswith sub s then Some i
  else match s with
       | EmptyString => None
       | String _ s' => find_from sub s' (S i)
       end.

(** [s.find(sub)]: the lowest index where [sub] occurs, [-1] when it does not. *)
Definition find (sub s : string) : Z :=
  match find_from sub s 0 with
  | Some i => Z.of_nat i
  | None => (-1)%Z
  end.

(** [s.split(sep)] for a one-character separator. *)
Fixpoint split (sep : ascii) (s : string) : list string :=
  match s with
  | EmptyString => [EmptyString]
  | String c s' =>
      if Ascii.eqb c sep then EmptyString :: split sep s'
      else match split sep s' with
           | part :: parts => String c part :: parts
           | [] => [String c EmptyString]
           end
  end.

(** [part[0]]. *)
Definition first_char (part : string) : result string :=
  match part with
  | EmptyString => Err IndexError
  | String c _ => Ok (String c EmptyString)
  end.

(** ['{} [{}]'.format(name, abbreviation)]. *)
Definition format_prompt (name abbreviation : string) : string :=
  name ++ " [" ++ abbreviation ++ "]".

(** ASCII lower-casing, the instance of [str.lower] used in the examples. *)
Definition lower_char (c : ascii) : ascii :=
  let n := nat_of_ascii c in
  if ((65 <=? n)%nat && (n <=? 90)%nat)%bool then ascii_of_nat (n + 32) else c.

Fixpoint ascii_lower (s : string) : string :=
  match s with
  | EmptyString => EmptyString
  | String c s' => String (lower_char c) (ascii_lower s')
  end.

(** ** Dictionaries *)

Section Dict.
Context {V : Type}.

Definition dict : Type := list (string * V).

Fixpoint dict_get (k : string) (d : dict) : option V :=
  match d with
  | [] => None
  | (k', v) :: d' => if String.eqb k k' then Some v else dict_get k d'
  end.

Definition dict_mem (k : string) (d : dict) : bool :=
  match dict_get k d with
  | Some _ => true
  | None => false
  end.

Fixpoint dict_set (k : string) (v : V) (d : dict) : dict :=
  match d with
  | [] => [(k, v)]
  | (k', v') :: d' =>
      if String.eqb k k' then (k', v) :: d' else (k', v') :: dict_set k v d'
  end.

Definition keys (d : dict) : list string := map fst d.
Definition values (d : dict) : list V := map snd d.
End Dict.
Arguments dict V : clear implicits.

(** ** Abbreviation by initials *)

Definition ACRONYMN : Z := 0.
Definition PROPER_NAME : Z := 1.

Definition abbreviate_initial (city : string) : result string :=
  let parts := split " " city in
  initials <- comprehension first_char parts ;;
  Ok (String.concat "" initials).

Fixpoint city_loop (cities : list string) (abbreviations : dict string)
    (prompts : list string) : result (list string * dict string) :=
  match cities with
  | [] => Ok (prompts, abbreviations)
  | city :: cities' =>
      abbreviation <- abbreviate_initial city ;;
      city_loop cities' (dict_set abbreviation city abbreviations)
        (prompts ++ [format_prompt city abbreviation])
  end.

Definition generate_city_prompts (cities : list string)
    : result (list string * dict string) :=
  city_loop cities [] [].

(** ** Abbreviation by shortest unique prefix *)

(** The body of [for length in range(1, len(name) + 1)], started at [length]
    with [remaining] iterations to go.  A free prefix is registered and ends
    the loop ([break]); a prefix held by a name marks that entry [None] and
    moves the holder to its prefix one longer; a prefix already marked [None]
    is skipped. *)
Fixpoint prefix_loop (remaining length : nat) (name : string)
    (potential_abbreviations : dict (option string)) : dict (option string) :=
  match remaining with
  | O => potential_abbreviations
  | S remaining' =>
      let first_part := slice_to length name in
      match dict_get first_part potential_abbreviations with
      | None => dict_set first_part (Some name) potential_abbreviations
      | Some previous_name =>
          match previous_name with
          | Some previous =>
              prefix_loop remaining' (S length) name
                (dict_set (slice_to (length + 1) previous) (Some previous)
                   (dict_set first_part None potential_abbreviations))
          | None =>
              prefix_loop remaining' (S length) name potential_abbreviations
          end
      end
  end.

(** One iteration of [for name in names]. *)
Definition register_name (name : string)
    (potential_abbreviations : dict (option string)) : dict (option string) :=
  if negb (find "not" name =? -1)%Z then
    dict_set "none" (Some name) potential_abbreviations
  else if negb (find "all" name =? -1)%Z then
    dict_set "all" (Some name) potential_abbreviations
  else
    prefix_loop (String.length name) 1 name potential_abbreviations.

Definition potential (names : list string) : dict (option string) :=
  fold_left (fun d name => register_name name d) names [].

(** The loop over [potential_abbreviations.items()]: entries marked [None]
    are dropped, the others are copied to [abbreviations] and inverted into
    [abbreviation_map]. *)
Fixpoint collect (items : dict (option string))
    (abbreviations abbreviation_map : dict string) : dict string * dict string :=
  match items with
  | [] => (abbreviations, abbreviation_map)
  | (key, value) :: items' =>
      match value with
      | Some v =>
          collect items' (dict_set key v abbreviations) (dict_set v key abbreviation_map)
      | None => collect items' abbreviations abbreviation_map
      end
  end.

(** [d[k]] on a dictionary of strings. *)
Definition subscript (d : dict string) (k : string) : result string :=
  match dict_get k d with
  | Some v => Ok v
  | None => Err (KeyError k)
  end.

Definition generate_name_prompts (names : list string)
    : result (list string * dict string) :=
  let potential_abbreviations := potential names in
  let '(abbreviations, abbreviation_map) := collect potential_abbreviations [] [] in
  prompts <- comprehension
               (fun name => key <- subscript abbreviation_map name ;;
                            Ok (format_prompt name key)) names ;;
  Ok (prompts, abbreviations).

(** ** Building the option text *)

(** [prompts[-1]]. *)
Definition last_item (prompts : list string) : result string :=
  match rev prompts with
  | [] => Err IndexError
  | x :: _ => Ok x
  end.

(** The local variables the two branches of [build_options] assign. *)
Record locals : Type := { city_part : option string; options : option string }.

Definition enumerate (prompts : list string) : result locals :=
  if (List.length prompts =? 1)%nat then
    first <- match prompts with x :: _ => Ok x | [] => Err IndexError end ;;
    Ok {| city_part := Some first; options := None |}
  else
    let first := removelast prompts in
    let first_part := String.concat ", " first in
    last <- last_item prompts ;;
    Ok {| city_part := None; options := Some (String.concat " or " [first_part; last]) |}.

(** Reading a local variable that no executed statement has assigned. *)
Definition read_local (name : string) (value : option string) : result string :=
  match value with
  | Some v => Ok v
  | None => Err (UnboundLocalError name)
  end.

Definition build_options (names : list string) (abbreviation_type : Z)
    : result (string * dict string) :=
  '(prompts, abbreviations) <-
     (if (abbreviation_type =? ACRONYMN)%Z then generate_city_prompts names
      else generate_name_prompts names) ;;
  env <- enumerate prompts ;;
  options <- read_local "options" (options env) ;;
  Ok (options, abbreviations).

(** ** Selection *)

Definition MAX_PROMPTS : nat := 3.

Section Selection.
(** [str.lower], left to the interpreter. *)
Variable lower : string -> string.

(** [for key, value in prompt_map.items()]: the value of the first entry
    whose key or value equals the input once both are lower-cased. *)
Fixpoint scan (raw : string) (items : dict string) : option string :=
  match items with
  | [] => None
  | (key, value) :: items' =>
      let lowercase := lower raw in
      if String.eqb lowercase (lower key) || String.eqb lowercase (lower value)
      then Some value
      else scan raw items'
  end.

(** [raw or "''"]. *)
Definition raw_or_quotes (raw : string) : string :=
  match raw with
  | EmptyString => "''"
  | _ => raw
  end.

(** [for index in range(0, MAX_PROMPTS)] and the statements after it.
    [raw] is the last line read so far, [None] before the first read. *)
Fixpoint attempts (remaining : nat) (prompt_map : dict string)
    (raw : option string) (stdin : list string) : result string * list string :=
  match remaining with
  | O =>
      match raw with
      | Some r => (Err (Exception ("Invalid selection: " ++ raw_or_quotes r)), stdin)
      | None => (Err (UnboundLocalError "selected"), stdin)
      end
  | S remaining' =>
      match stdin with
      | [] => (Err EOFError, [])
      | line :: stdin' =>
          match scan line prompt_map with
          | Some selected => (Ok selected, stdin')
          | None => attempts remaining' prompt_map (Some line) stdin'
          end
      end
  end.

Definition show_prompt (names : list string) (abbreviation_type : Z)
    (beginning : string) (stdin : list string) : result string * list string :=
  match build_options names abbreviation_type with
  | Err e => (Err e, stdin)
  | Ok (word_part, prompt_map) => attempts MAX_PROMPTS prompt_map None stdin
  end.
End Selection.

(** ** Vocabulary of the specification *)

(** The first character of a token, as a string; nothing for an empty token. *)
Definition first_letter (token : string) : string :=
  match token with
  | EmptyString => EmptyString
  | String c _ => String c EmptyString
  end.

(** The acronym of the specification: the first character of each
    space-separated token, concatenated, case preserved. *)
Definition initials (name : string) : string :=
  String.concat "" (map first_letter (split " " name)).

(** Every space-separated token of the name is non-empty. *)
Definition tokens_nonempty (name : string) : Prop :=
  Forall (fun token => token <> EmptyString) (split " " name).

(** [sub] occurs in [s]. *)
Definition contains (sub s : string) : Prop :=
  exists before after : string, s = (before ++ sub ++ after)%string.

(** The assignment [abbreviations[abbreviation] = city] of one iteration. *)
Definition insert_city (d : dict string) (city : string) : dict string :=
  dict_set (initials city) city d.

(** The last name of the list whose acronym is [k]. *)
Definition last_with_initials (k : string) (cities : list string) : option string :=
  List.find (fun city => String.eqb (initials city) k) (rev cities).

(** The input [raw] selects the entry: it equals the entry's key or its
    value once both sides are lower-cased. *)
Definition matches (lower : string -> string) (raw : string)
    (entry : string * string) : Prop :=
  lower raw = lower (fst entry) \/ lower raw = lower (snd entry).

(** No entry of the map is selected by [raw]. *)
Definition no_match (lower : string -> string) (raw : string)
    (prompt_map : dict string) : Prop :=
  forall entry, In entry prompt_map -> ~ matches lower raw entry.

(** [name] is the value of the first entry, in iteration order, that [raw]
    selects. *)
Definition first_match (lower : string -> string) (raw : string)
    (prompt_map : dict string) (name : string) : Prop :=
  exists before key after,
    prompt_map = before ++ (key, name) :: after /\
    matches lower raw (key, name) /\
    forall entry, In entry before -> ~ matches lower raw entry.

(** [name] holds an entry that is not marked [None]. *)
Definition registered (name : string) (d : dict (option string)) : Prop :=
  exists key, In (key, Some name) d.

(** No name of the list is a prefix of another one. *)
Definition prefix_free (names : list string) : Prop :=
  forall a b, In a names -> In b names -> startswith a b = true -> a = b.

(** None of the names is empty or a catch-all. *)
Definition plain_names (names : list string) : Prop :=
  forall name, In name names ->
    name <> EmptyString /\ ~ contains "not" name /\ ~ contains "all" name.

(** The dictionary abbreviates the processed names [done]: every entry that
    holds a name is keyed by a non-empty prefix that no other processed name
    starts with, every processed name holds exactly one entry, every shorter
    prefix of the name is an entry marked [None], and the entries marked
    [None] are prefixes shared by two processed names. *)
Record abbreviates (done : list string) (d : dict (option string)) : Prop := {
  ab_live : forall k v, dict_get k d = Some (Some v) ->
      In v done /\ k <> EmptyString /\ startswith k v = true;
  ab_dead : forall k, dict_get k d = Some None ->
      exists a b, In a done /\ In b done /\ a <> b /\
                  startswith k a = true /\ startswith k b = true;
  ab_total : forall v, In v done -> exists k, dict_get k d = Some (Some v);
  ab_one : forall k k' v,
      dict_get k d = Some (Some v) -> dict_get k' d = Some (Some v) -> k = k';
  ab_unique : forall k v w,
      dict_get k d = Some (Some v) -> In w done -> startswith k w = true -> w = v;
  ab_down : forall k v l,
      dict_get k d = Some (Some v) -> 1 <= l < String.length k ->
      dict_get (slice_to l v) d = Some None
}.

(** The state of the prefix search for [name] before it tries [length]:
    as [abbreviates] for the names processed before, except that the
    prefixes of [name] shorter than [length] are all marked [None], each
    shared with a processed name. *)
Record searching (done : list string) (name : string) (length : nat)
    (d : dict (option string)) : Prop := {
  se_live : forall k v, dict_get k d = Some (Some v) ->
      In v done /\ k <> EmptyString /\ startswith k v = true;
  se_dead : forall k, dict_get k d = Some None ->
      (exists a b, In a done /\ In b done /\ a <> b /\
                   startswith k a = true /\ startswith k b = true) \/
      (String.length k < length /\ startswith k name = true /\
       exists a, In a done /\ startswith k a = true);
  se_total : forall v, In v done -> exists k, dict_get k d = Some (Some v);
  se_one : forall k k' v,
      dict_get k d = Some (Some v) -> dict_get k' d = Some (Some v) -> k = k';
  se_unique : forall k v w,
      dict_get k d = Some (Some v) -> In w done -> startswith k w = true -> w = v;
  se_down : forall k v l,
      dict_get k d = Some (Some v) -> 1 <= l < String.length k ->
      dict_get (slice_to l v) d = Some None;
  se_passed : forall l, 1 <= l < length -> dict_get (slice_to l name) d = Some None
}.

(** The prompts and the map abbreviate the names by their shortest unique
    prefixes: the keys are pairwise distinct; the prompts are, in order,
    those of the names with their keys; every name holds exactly one entry;
    the key of an entry is a non-empty prefix of its name that no other name
    starts with, and every shorter non-empty prefix of the name is shared
    with another name, whose own key agrees with it at that length. *)
Definition minimal_prefixes (names prompts : list string) (m : dict string) : Prop :=
  NoDup (keys m) /\
  Forall2 (fun name prompt =>
             exists key, dict_get key m = Some name /\
                         prompt = format_prompt name key) names prompts /\
  (forall name, In name names ->
     exists key, In (key, name) m /\ forall key', In (key', name) m -> key' = key) /\
  (forall key name, In (key, name) m ->
     In name names /\ key <> EmptyString /\ startswith key name = true /\
     (forall other, In other names -> other <> name -> startswith key other = false) /\
     (forall l, 1 <= l < String.length key ->
        exists key' other,
          In (key', other) m /\ other <> name /\
          startswith (slice_to l name) other = true /\
          slice_to l key' = slice_to l name)).

(** ** File names and cities *)

(** [s[n:]]. *)
Fixpoint slice_from (n : nat) (s : string) : string :=
  match n, s with
  | S n', String _ s' => slice_from n' s'
  | _, _ => s
  end.

(** [s[:-n]] for a positive [n]: all but the last [n] characters. *)
Definition drop_last (n : nat) (s : string) : string :=
  slice_to (String.length s - n) s.

(** [s[-n:]] for a positive [n]: the last [n] characters, the whole string
    when it is shorter. *)
Definition last_chars (n : nat) (s : string) : string :=
  slice_from (String.length s - n) s.

(** [s.replace(old, new)] for one-character [old] and [new]. *)
Fixpoint replace (old new : ascii) (s : string) : string :=
  match s with
  | EmptyString => EmptyString
  | String c s' => String (if Ascii.eqb c old then new else c) (replace old new s')
  end.

Definition is_upper (c : ascii) : bool :=
  ((65 <=? nat_of_ascii c)%nat && (nat_of_ascii c <=? 90)%nat)%bool.

Definition is_lower (c : ascii) : bool :=
  ((97 <=? nat_of_ascii c)%nat && (nat_of_ascii c <=? 122)%nat)%bool.

Definition upper_char (c : ascii) : ascii :=
  if is_lower c then ascii_of_nat (nat_of_ascii c - 32) else c.

(** [str.title] on ASCII text: a letter that follows a letter is lower-cased,
    any other letter is upper-cased, the other characters are kept. *)
Fixpoint title_from (previous_is_cased : bool) (s : string) : string :=
  match s with
  | EmptyString => EmptyString
  | String c s' =>
      String (if previous_is_cased then lower_char c else upper_char c)
             (title_from (is_upper c || is_lower c) s')
  end.

Definition ascii_title (s : string) : string := title_from false s.

(** The text is ASCII: on such text [ascii_lower] and [ascii_title] are
    [str.lower] and [str.title]. *)
Definition is_ascii (s : string) : Prop :=
  Forall (fun c => nat_of_ascii c < 128) (list_ascii_of_string s).

Definition WEEKDAYS : list string :=
  ["Monday"; "Tuesday"; "Wednesday"; "Thursday"; "Friday"; "Saturday"; "Sunday"; "all"].
Definition MONTHS : list string :=
  ["January"; "February"; "March"; "April"; "May"; "June"; "all"].
Definition ALL : Z := (-1)%Z.

(** What a call that also uses [list.index] can raise. *)
Inductive raised : Type :=
| Raise (e : exn)
| RaiseValueError (item : string).

Inductive outcome (A : Type) : Type :=
| Return (value : A)
| Raised (r : raised).
Arguments Return {A} value.
Arguments Raised {A} r.

(** [l.index(x)]: the first position of [x], [ValueError] when absent. *)
Fixpoint index_from (x : string) (l : list string) (i : Z) : outcome Z :=
  match l with
  | [] => Raised (RaiseValueError x)
  | y :: l' => if String.eqb y x then Return i else index_from x l' (i + 1)%Z
  end.

Definition index (l : list string) (x : string) : outcome Z := index_from x l 0%Z.

Section Files.
(** [str.lower] and [str.title], left to the interpreter; [os.path.isfile]
    and [os.listdir], left to the file system. *)
Variable lower title : string -> string.
Variable isfile : string -> bool.
Variable listdir : string -> list string.

Definition is_csv_file (file : string) : bool :=
  isfile file && String.eqb (last_chars 4 file) ".csv".

Definition get_city_name (csv_name : string) : string :=
  title (replace "_" " " (drop_last 4 csv_name)).

Definition get_csv_name (city : string) : string :=
  lower (replace " " "_" city) ++ ".csv".

Definition create_city_csv_list (project_path : string) : list string :=
  filter is_csv_file (listdir project_path).

(** The month or day question of [get_filters]: the position of the selected
    name in its list plus [offset], [ALL] for the name ["all"]. *)
Definition period (periods : list string) (offset : Z) (beginning : string)
    (stdin : list string) : outcome Z * list string :=
  match show_prompt lower periods PROPER_NAME beginning stdin with
  | (Err e, stdin') => (Raised (Raise e), stdin')
  | (Ok period_name, stdin') =>
      if negb (String.eqb period_name "all") then
        match index periods period_name with
        | Return i => (Return (i + offset)%Z, stdin')
        | Raised r => (Raised r, stdin')
        end
      else (Return ALL, stdin')
  end.

(** [get_filters], without what it prints: the file to load and the month
    and day to filter by. *)
Definition get_filters (dataset project_path : string) (stdin : list string)
    : outcome (string * Z * Z) * list string :=
  let city_csv_files := create_city_csv_list project_path in
  if (List.length city_csv_files =? 0)%nat then
    (Raised (Raise (Exception
       "No CSVs containing statistical data for a city were found")), stdin)
  else
    let cities := map get_city_name city_csv_files in
    match show_prompt lower cities ACRONYMN "Would you like to see data for" stdin with
    | (Err e, stdin1) => (Raised (Raise e), stdin1)
    | (Ok city, stdin1) =>
        match show_prompt lower ["month"; "day"; "not at all"] PROPER_NAME
                "Would you like to filter the data by" stdin1 with
        | (Err e, stdin2) => (Raised (Raise e), stdin2)
        | (Ok date_filter, stdin2) =>
            if String.eqb date_filter "month" then
              match period MONTHS 1 "Which month -" stdin2 with
              | (Return month, stdin3) => (Return (get_csv_name city, month, ALL), stdin3)
              | (Raised r, stdin3) => (Raised r, stdin3)
              end
            else if String.eqb date_filter "day" then
              match period WEEKDAYS 0 "Which day -" stdin2 with
              | (Return day, stdin3) => (Return (get_csv_name city, ALL, day), stdin3)
              | (Raised r, stdin3) => (Raised r, stdin3)
              end
            else (Return (get_csv_name city, ALL, ALL), stdin2)
        end
    end.
End Files.

(** ** Paging through the raw data *)

(** [l[start:stop]] for non-negative bounds. *)
Definition slice {A : Type} (start stop : nat) (l : list A) : list A :=
  firstn (stop - start) (skipn start l).

Section RawStats.
Variable lower : string -> string.
(** A frame is the list of its rows in order, each with its index label and
    its values. *)
Context {label values : Type}.
Variable label_eq_dec : forall a b : label, {a = b} + {a <> b}.

Definition frame : Type := list (label * values).

(** [df.index]. *)
Definition df_index (df : frame) : list label := map fst df.

(** [df.loc[indices]]: for each label asked for, in the order asked, every
    row of the frame that carries it. *)
Definition loc (indices : list label) (df : frame) : frame :=
  flat_map
    (fun wanted =>
       filter (fun entry => if label_eq_dec (fst entry) wanted then true else false) df)
    indices.

Definition max_rows : nat := 25.
Definition row_count : nat := 5.

(** The [while] loop of [prompt_for_raw_stats], at most [fuel] iterations:
    [None] when they do not suffice.  [printed] collects the frames
    [df.loc[indices]] handed to [print]. *)
Fixpoint raw_stats_loop (fuel : nat) (df : frame) (row : nat)
    (stdin : list string) (printed : list frame)
    : option (result unit * list string * list frame) :=
  match fuel with
  | O => None
  | S fuel' =>
      if ((row <? max_rows)%nat && (row <? List.length (df_index df))%nat)%bool then
        let indices :=
          slice row (Nat.min (row + row_count + 1) (List.length (df_index df)) - 1)
                (df_index df) in
        let printed' := printed ++ [loc indices df] in
        let row' := row + row_count in
        match stdin with
        | [] => Some (Err EOFError, [], printed')
        | display_more_data :: stdin' =>
            if negb (String.eqb (lower display_more_data) "yes")
            then Some (Ok tt, stdin', printed')
            else raw_stats_loop fuel' df row' stdin' printed'
        end
      else Some (Ok tt, stdin, printed)
  end.

Definition prompt_for_raw_stats (df : frame) (stdin : list string)
    : option (result unit * list string * list frame) :=
  match stdin with
  | [] => Some (Err EOFError, [], [])
  | display_data :: stdin' =>
      if String.eqb (lower display_data) "yes"
      then raw_stats_loop (S max_rows) df 0 stdin' []
      else Some (Ok tt, stdin', [])
  end.
End RawStats.

(** ** Dictionaries of plain names *)

(** [k] is a key of the dictionary, whatever it holds. *)
Definition is_key (k : string) (d : dict (option string)) : Prop :=
  dict_get k d <> None.

(** [name] is held under some key. *)
Definition holds (name : string) (d : dict (option string)) : Prop :=
  exists k, dict_get k d = Some (Some name).

(** What every dictionary built from names without catch-all substrings
    satisfies: the keys are closed under non-empty prefixes; a key that holds
    a name is a non-empty prefix of it; and a key that holds a longer name is
    extended by no other key. *)
Record tidy (d : dict (option string)) : Prop := {
  tidy_closed : forall k l,
      is_key k d -> 1 <= l <= String.length k -> is_key (slice_to l k) d;
  tidy_prefix : forall k v,
      dict_get k d = Some (Some v) -> k <> EmptyString /\ startswith k v = true;
  tidy_room : forall k v k',
      dict_get k d = Some (Some v) -> k <> v -> is_key k' d ->
      startswith k k' = true -> k' = k
}.

(** The prefixes of [name] shorter than [length] have been tried: each is
    marked [None] or holds the name that is this very prefix. *)
Definition passed (name : string) (length : nat) (d : dict (option string)) : Prop :=
  forall l, 1 <= l < length ->
    dict_get (slice_to l name) d = Some None \/
    dict_get (slice_to l name) d = Some (Some (slice_to l name)).

(** Every key is a prefix of one of the names [done], and only these names
    are held. *)
Definition named (done : list string) (d : dict (option string)) : Prop :=
  (forall k, is_key k d -> exists n, In n done /\ startswith k n = true) /\
  (forall k v, dict_get k d = Some (Some v) -> In v done).

(** No name of the list comes after a name it is a prefix of. *)
Definition shorter_first (names : list string) : Prop :=
  forall before name after longer,
    names = before ++ name :: after -> In longer before ->
    startswith name longer = false.

(** ** Catch-all names *)




(** ** Basic facts: results *)

Lemma comprehension_ok {A B : Type} (f : A -> result B) (g : A -> B) (xs : list A) :
  (forall x, In x xs -> f x = Ok (g x)) ->
  comprehension f xs = Ok (map g xs).
Proof.
  induction xs as [|x xs IH]; intros H; simpl; [reflexivity|].
  rewrite (H x (or_introl eq_refl)). simpl.
  rewrite IH; [reflexivity|]. intros y Hy. apply H. now right.
Qed.

Lemma comprehension_inv {A B : Type} (f : A -> result B) (xs : list A) (ys : list B) :
  comprehension f xs = Ok ys -> Forall2 (fun x y => f x = Ok y) xs ys.
Proof.
  revert ys. induction xs as [|x xs IH]; simpl; intros ys H.
  - injection H as <-. constructor.
  - destruct (f x) as [y|e] eqn:Hx; simpl in H; [|discriminate].
    destruct (comprehension f xs) as [l|e]; simpl in H; [|discriminate].
    injection H as <-. constructor; auto.
Qed.

(** ** Basic facts: strings *)

Lemma slice_to_length (n : nat) (s : string) :
  String.length (slice_to n s) = Nat.min n (String.length s).
Proof.
  revert s. induction n as [|n IH]; intros [|c s]; simpl; auto.
Qed.

Lemma slice_to_all (n : nat) (s : string) :
  String.length s <= n -> slice_to n s = s.
Proof.
  revert s. induction n as [|n IH]; intros [|c s]; simpl; intros H; try reflexivity; try lia.
  f_equal. apply IH. lia.
Qed.

Lemma slice_to_slice_to (n m : nat) (s : string) :
  slice_to n (slice_to m s) = slice_to (Nat.min n m) s.
Proof.
  revert m s. induction n as [|n IH]; intros [|m] [|c s]; simpl; try reflexivity.
  f_equal. apply IH.
Qed.

Lemma startswith_iff (p s : string) :
  startswith p s = true <-> exists t : string, s = (p ++ t)%string.
Proof.
  revert s. induction p as [|a p IH]; intros s; simpl.
  - split; eauto.
  - destruct s as [|b s].
    + split; [discriminate|]. intros [t Ht]. discriminate.
    + rewrite andb_true_iff, Ascii.eqb_eq, IH. split.
      * intros [-> [t ->]]. eauto.
      * intros [t Ht]. injection Ht as -> ->. eauto.
Qed.

Lemma find_from_some (sub s : string) (i : nat) :
  (exists j, find_from sub s i = Some j) <-> contains sub s.
Proof.
  revert i. induction s as [|c s IH]; intros i; simpl.
  - destruct (startswith sub "") eqn:Hp.
    + split; [|eauto]. intros _. apply startswith_iff in Hp as [t Ht].
      exists "", t. exact Ht.
    + split; [intros [j Hj]; discriminate|].
      intros (a & b & Hab). exfalso.
      destruct a; [|discriminate]. simpl in Hab.
      assert (startswith sub "" = true) by (apply startswith_iff; eauto).
      congruence.
  - destruct (startswith sub (String c s)) eqn:Hp.
    + split; [|eauto]. intros _. apply startswith_iff in Hp as [t Ht].
      exists "", t. exact Ht.
    + rewrite IH. split.
      * intros (a & b & ->). exists (String c a), b. reflexivity.
      * intros (a & b & Hab). destruct a as [|x a].
        -- simpl in Hab.
           assert (startswith sub (String c s) = true) by (apply startswith_iff; eauto).
           congruence.
        -- injection Hab as -> ->. exists a, b. reflexivity.
Qed.

(** [find] answers [-1] exactly when the substring does not occur. *)
Lemma find_contains (sub s : string) :
  find sub s <> (-1)%Z <-> contains sub s.
Proof.
  rewrite <- (find_from_some sub s 0). unfold find.
  destruct (find_from sub s 0) as [j|].
  - split; [eauto|]. intros _. lia.
  - split; [congruence|]. intros [j Hj]. discriminate.
Qed.

Lemma find_test (sub s : string) :
  negb (find sub s =? -1)%Z = true <-> contains sub s.
Proof.
  rewrite negb_true_iff, Z.eqb_neq. apply find_contains.
Qed.

(** ** Basic facts: dictionaries *)

Section DictFacts.
Context {V : Type}.
Implicit Types (d : dict V) (k : string) (v : V).

Lemma dict_get_set_eq k v d : dict_get k (dict_set k v d) = Some v.
Proof.
  induction d as [|[k' v'] d IH]; simpl.
  - now rewrite String.eqb_refl.
  - destruct (String.eqb k k') eqn:E; simpl; rewrite E; auto.
Qed.

Lemma dict_get_set_ne k k' v d :
  k <> k' -> dict_get k' (dict_set k v d) = dict_get k' d.
Proof.
  intros Hne. induction d as [|[k2 v2] d IH]; simpl.
  - destruct (String.eqb k' k) eqn:E; [|reflexivity].
    apply String.eqb_eq in E. congruence.
  - destruct (String.eqb k k2) eqn:E; simpl.
    + apply String.eqb_eq in E as <-.
      destruct (String.eqb k' k) eqn:E'; [|reflexivity].
      apply String.eqb_eq in E'. congruence.
    + now rewrite IH.
Qed.

Lemma dict_get_set k k' v d :
  dict_get k' (dict_set k v d) = if String.eqb k k' then Some v else dict_get k' d.
Proof.
  destruct (String.eqb k k') eqn:E.
  - apply String.eqb_eq in E as ->. apply dict_get_set_eq.
  - apply String.eqb_neq in E. now apply dict_get_set_ne.
Qed.

Lemma dict_get_in k v d : dict_get k d = Some v -> In (k, v) d.
Proof.
  induction d as [|[k' v'] d IH]; simpl; [discriminate|].
  destruct (String.eqb k k') eqn:E.
  - apply String.eqb_eq in E as ->. intros [= ->]. now left.
  - intros H. right. auto.
Qed.

Lemma dict_get_none k d : dict_get k d = None <-> ~ In k (keys d).
Proof.
  induction d as [|[k' v'] d IH]; simpl; [tauto|].
  destruct (String.eqb k k') eqn:E.
  - apply String.eqb_eq in E as ->. split; [discriminate|]. intros H. exfalso. auto.
  - apply String.eqb_neq in E. rewrite IH. split.
    + intros H [H1|H1]; [congruence|auto].
    + intros H H1. apply H. now right.
Qed.

Lemma in_dict_get k v d : NoDup (keys d) -> In (k, v) d -> dict_get k d = Some v.
Proof.
  induction d as [|[k' v'] d IH]; simpl; [contradiction|].
  intros Hnd [H|H].
  - injection H as -> ->. now rewrite String.eqb_refl.
  - inversion Hnd as [|? ? Hnotin Hnd']; subst.
    destruct (String.eqb k k') eqn:E.
    + apply String.eqb_eq in E as ->. exfalso. apply Hnotin.
      change k' with (fst (k', v)). now apply in_map.
    + auto.
Qed.

Lemma keys_dict_set k v d :
  keys (dict_set k v d) = if dict_mem k d then keys d else keys d ++ [k].
Proof.
  unfold dict_mem. induction d as [|[k' v'] d IH]; simpl; [reflexivity|].
  destruct (String.eqb k k') eqn:E; simpl; [reflexivity|].
  rewrite IH. destruct (dict_get k d); reflexivity.
Qed.

Lemma NoDup_keys_dict_set k v d : NoDup (keys d) -> NoDup (keys (dict_set k v d)).
Proof.
  intros H. rewrite keys_dict_set. unfold dict_mem.
  destruct (dict_get k d) eqn:E; [exact H|].
  apply dict_get_none in E.
  apply NoDup_rev in H. rewrite <- (rev_involutive (keys d ++ [k])).
  apply NoDup_rev. rewrite rev_app_distr. simpl. constructor; [|exact H].
  now rewrite <- in_rev.
Qed.

Lemma in_values_iff v d : In v (values d) <-> exists k, In (k, v) d.
Proof.
  unfold values. rewrite in_map_iff. split.
  - intros [[k v'] [<- H]]. eauto.
  - intros [k H]. exists (k, v). auto.
Qed.
End DictFacts.

(** ** Tokens and initials *)

Lemma split_not_nil (sep : ascii) (s : string) : split sep s <> [].
Proof.
  destruct s as [|c s]; simpl; [discriminate|].
  destruct (Ascii.eqb c sep); [discriminate|].
  destruct (split sep s); discriminate.
Qed.

Lemma hd_split_empty (sep : ascii) (s : string) :
  hd EmptyString (split sep s) = EmptyString <->
  s = EmptyString \/ exists t, s = String sep t.
Proof.
  destruct s as [|c s]; simpl.
  - tauto.
  - destruct (Ascii.eqb c sep) eqn:E.
    + apply Ascii.eqb_eq in E as ->. simpl. split; eauto.
    + apply Ascii.eqb_neq in E.
      assert (Hhd : hd EmptyString
                (match split sep s with
                 | part :: parts => String c part :: parts
                 | [] => [String c EmptyString]
                 end) <> EmptyString)
        by (destruct (split sep s); simpl; discriminate).
      split; [intros H; contradiction|].
      intros [H|[t H]]; [discriminate|]. injection H as H _. contradiction.
Qed.

Lemma tl_split_empty (sep : ascii) (s : string) :
  In EmptyString (tl (split sep s)) <->
  (exists t : string, s = (t ++ String sep EmptyString)%string) \/
  (exists a b : string, s = (a ++ String sep (String sep b))%string).
Proof.
  induction s as [|c s IH].
  - simpl. split; [contradiction|].
    intros [[t H]|(a & b & H)].
    + destruct t; discriminate.
    + destruct a; discriminate.
  - simpl. destruct (Ascii.eqb c sep) eqn:E.
    + apply Ascii.eqb_eq in E as ->. simpl.
      assert (Hin : In EmptyString (split sep s) <->
                    hd EmptyString (split sep s) = EmptyString \/
                    In EmptyString (tl (split sep s))).
      { pose proof (split_not_nil sep s) as Hn.
        destruct (split sep s) as [|h t]; [contradiction|]. simpl. tauto. }
      rewrite Hin, hd_split_empty, IH. split.
      * intros [[->|[t ->]]|[[t ->]|(a & b & ->)]].
        -- left. exists EmptyString. reflexivity.
        -- right. exists EmptyString, t. reflexivity.
        -- left. exists (String sep t). reflexivity.
        -- right. exists (String sep a), b. reflexivity.
      * intros [[t H]|(a & b & H)].
        -- destruct t as [|x t]; simpl in H.
           ++ injection H as <-. left. now left.
           ++ injection H as _ ->. right. left. eauto.
        -- destruct a as [|x a]; simpl in H.
           ++ injection H as ->. left. right. eauto.
           ++ injection H as _ ->. right. right. eauto.
    + apply Ascii.eqb_neq in E.
      assert (Htl : tl (match split sep s with
                        | part :: parts => String c part :: parts
                        | [] => [String c EmptyString]
                        end) = tl (split sep s)).
      { pose proof (split_not_nil sep s) as Hn.
        destruct (split sep s); [contradiction|reflexivity]. }
      rewrite Htl, IH. split.
      * intros [[t ->]|(a & b & ->)].
        -- left. exists (String c t). reflexivity.
        -- right. exists (String c a), b. reflexivity.
      * intros [[t H]|(a & b & H)].
        -- destruct t as [|x t]; simpl in H.
           ++ injection H as H _. contradiction.
           ++ injection H as _ ->. left. eauto.
        -- destruct a as [|x a]; simpl in H.
           ++ injection H as H _. contradiction.
           ++ injection H as _ ->. right. eauto.
Qed.

(** A name has an empty token exactly when it is empty, or starts or ends
    with a space, or holds two spaces in a row. *)
Lemma empty_token_iff (s : string) :
  In EmptyString (split " " s) <->
  s = EmptyString \/ (exists t : string, s = (" " ++ t)%string) \/
  (exists t : string, s = (t ++ " ")%string) \/ contains "  " s.
Proof.
  assert (Hin : In EmptyString (split " " s) <->
                hd EmptyString (split " " s) = EmptyString \/
                In EmptyString (tl (split " " s))).
  { pose proof (split_not_nil " " s) as Hn.
    destruct (split " " s) as [|h t]; [contradiction|]. simpl. tauto. }
  rewrite Hin, hd_split_empty, tl_split_empty. unfold contains. simpl. tauto.
Qed.

Lemma tokens_nonempty_iff (s : string) :
  tokens_nonempty s <-> ~ In EmptyString (split " " s).
Proof.
  unfold tokens_nonempty. rewrite Forall_forall. split.
  - intros H Hin. now apply (H _ Hin).
  - intros H x Hx ->. contradiction.
Qed.

Lemma tokens_nonempty_dec (s : string) : {tokens_nonempty s} + {~ tokens_nonempty s}.
Proof.
  unfold tokens_nonempty. apply Forall_dec. intros x.
  destruct (string_dec x EmptyString); [right|left]; tauto.
Qed.

Lemma first_chars_cases (parts : list string) :
  (Forall (fun token => token <> EmptyString) parts /\
   comprehension first_char parts = Ok (map first_letter parts)) \/
  (~ Forall (fun token => token <> EmptyString) parts /\
   comprehension first_char parts = Err IndexError).
Proof.
  induction parts as [|p parts IH]; simpl.
  - left. split; [constructor|reflexivity].
  - destruct p as [|c p]; simpl.
    + right. split; [|reflexivity]. intros H. inversion H; subst. congruence.
    + destruct IH as [[HF ->]|[HF ->]]; simpl.
      * left. split; [|reflexivity]. constructor; [discriminate|exact HF].
      * right. split; [|reflexivity]. intros H. inversion H; subst. contradiction.
Qed.

Lemma abbreviate_initial_ok (city : string) :
  tokens_nonempty city -> abbreviate_initial city = Ok (initials city).
Proof.
  intros H. unfold abbreviate_initial, initials.
  destruct (first_chars_cases (split " " city)) as [[_ ->]|[HF _]]; [reflexivity|].
  contradiction.
Qed.

Lemma abbreviate_initial_err (city : string) :
  ~ tokens_nonempty city -> abbreviate_initial city = Err IndexError.
Proof.
  intros H. unfold abbreviate_initial.
  destruct (first_chars_cases (split " " city)) as [[HF _]|[_ ->]]; [|reflexivity].
  contradiction.
Qed.

(** ** The loop of [generate_city_prompts] *)

Lemma city_loop_ok (cities : list string) (d : dict string) (prompts : list string) :
  Forall tokens_nonempty cities ->
  city_loop cities d prompts =
  Ok (prompts ++ map (fun city => format_prompt city (initials city)) cities,
      fold_left insert_city cities d).
Proof.
  revert d prompts. induction cities as [|c cities IH]; intros d prompts H; simpl.
  - now rewrite app_nil_r.
  - inversion H as [|? ? Hc Hrest]; subst.
    rewrite (abbreviate_initial_ok c Hc). simpl.
    rewrite (IH _ _ Hrest), <- app_assoc. reflexivity.
Qed.

Lemma city_loop_err (cities : list string) (d : dict string) (prompts : list string) :
  ~ Forall tokens_nonempty cities -> city_loop cities d prompts = Err IndexError.
Proof.
  revert d prompts. induction cities as [|c cities IH]; intros d prompts H; simpl.
  - exfalso. apply H. constructor.
  - destruct (tokens_nonempty_dec c) as [Hc|Hc].
    + rewrite (abbreviate_initial_ok c Hc). simpl. apply IH.
      intros Hrest. apply H. now constructor.
    + now rewrite (abbreviate_initial_err c Hc).
Qed.

Lemma NoDup_keys_fold_insert_city (cities : list string) (d : dict string) :
  NoDup (keys d) -> NoDup (keys (fold_left insert_city cities d)).
Proof.
  revert d. induction cities as [|c cities IH]; intros d H; simpl; [exact H|].
  apply IH. now apply NoDup_keys_dict_set.
Qed.

Lemma last_with_initials_snoc (k : string) (cities : list string) (c : string) :
  last_with_initials k (cities ++ [c]) =
  if String.eqb (initials c) k then Some c else last_with_initials k cities.
Proof.
  unfold last_with_initials. now rewrite rev_app_distr.
Qed.

Lemma dict_get_fold_insert_city (k : string) (cities : list string) (d : dict string) :
  dict_get k (fold_left insert_city cities d) =
  match last_with_initials k cities with
  | Some c => Some c
  | None => dict_get k d
  end.
Proof.
  induction cities as [|c cities IH] using rev_ind; [reflexivity|].
  rewrite fold_left_app, last_with_initials_snoc. simpl.
  unfold insert_city at 1. rewrite dict_get_set.
  destruct (String.eqb (initials c) k); [reflexivity|exact IH].
Qed.

Lemma last_with_initials_split (k : string) (cities : list string) (c : string) :
  last_with_initials k cities = Some c ->
  exists before after, cities = before ++ c :: after /\ initials c = k /\
                       forall x, In x after -> initials x <> k.
Proof.
  induction cities as [|x cities IH] using rev_ind; [discriminate|].
  rewrite last_with_initials_snoc.
  destruct (String.eqb (initials x) k) eqn:E.
  - intros [= ->]. apply String.eqb_eq in E. exists cities, []. repeat split; auto.
  - intros H. destruct (IH H) as (before & after & -> & Hk & Hafter).
    exists before, (after ++ [x]). rewrite <- app_assoc. repeat split; auto.
    intros y Hy. apply in_app_or in Hy as [Hy|[<-|[]]]; auto.
    now apply String.eqb_neq.
Qed.

(** Two ways of splitting one list at an element: the first element lies
    after the second, or they are the same, or the second lies after the
    first. *)
Lemma split_positions {A : Type} (x y : A) (a b a' b' : list A) :
  a ++ x :: b = a' ++ y :: b' -> In x b' \/ x = y \/ In y b.
Proof.
  revert a'. induction a as [|z a IH]; intros [|z' a'] H; simpl in H.
  - injection H as -> _. auto.
  - injection H as _ ->. right. right. apply in_or_app. right. now left.
  - injection H as _ <-. left. apply in_or_app. right. now left.
  - injection H as _ H. eauto.
Qed.

Lemma generate_city_prompts_ok (cities : list string) :
  Forall tokens_nonempty cities ->
  exists abbreviations,
    generate_city_prompts cities =
      Ok (map (fun city => format_prompt city (initials city)) cities, abbreviations) /\
    NoDup (keys abbreviations) /\
    forall k, dict_get k abbreviations = last_with_initials k cities.
Proof.
  intros H. exists (fold_left insert_city cities []).
  unfold generate_city_prompts. rewrite (city_loop_ok cities [] [] H). simpl.
  split; [reflexivity|]. split.
  - apply NoDup_keys_fold_insert_city. constructor.
  - intros k. rewrite dict_get_fold_insert_city.
    destruct (last_with_initials k cities); reflexivity.
Qed.

(** C6.  On names whose tokens are all non-empty, [generate_city_prompts]
    returns, in input order, the display string ["<Name> [<Abbreviation>]"]
    of every name, the abbreviation being the first character of each
    space-separated token, concatenated with its case unchanged; the map has
    no repeated key and holds under each abbreviation the last name that has
    it; whenever the call returns, on any list, its result is of this form.
    For Chicago, New York City and Washington the map is C, NYC, W and
    the joined prompt text is
    ["Chicago [C], New York City [NYC] or Washington [W]"]. *)
Theorem generate_city_prompts_initials :
  (forall cities, Forall tokens_nonempty cities ->
     exists abbreviations,
       generate_city_prompts cities =
         Ok (map (fun city => format_prompt city (initials city)) cities, abbreviations) /\
       NoDup (keys abbreviations) /\
       forall k, dict_get k abbreviations = last_with_initials k cities) /\
  (forall cities prompts abbreviations,
     generate_city_prompts cities = Ok (prompts, abbreviations) ->
     prompts = map (fun city => format_prompt city (initials city)) cities /\
     forall k, dict_get k abbreviations = last_with_initials k cities) /\
  initials "New York City" = "NYC" /\
  generate_city_prompts ["Chicago"; "New York City"; "Washington"] =
    Ok (["Chicago [C]"; "New York City [NYC]"; "Washington [W]"],
        [("C", "Chicago"); ("NYC", "New York City"); ("W", "Washington")]) /\
  build_options ["Chicago"; "New York City"; "Washington"] ACRONYMN =
    Ok ("Chicago [C], New York City [NYC] or Washington [W]",
        [("C", "Chicago"); ("NYC", "New York City"); ("W", "Washington")]).
Proof.
  split; [exact generate_city_prompts_ok|].
  split; [|repeat split; reflexivity].
  intros cities prompts abbreviations H.
  destruct (Forall_dec tokens_nonempty tokens_nonempty_dec cities) as [Htok|Htok].
  - destruct (generate_city_prompts_ok cities Htok) as (m & Hrun & _ & Hget).
    rewrite Hrun in H. injection H as <- <-. auto.
  - unfold generate_city_prompts in H. rewrite (city_loop_err _ _ _ Htok) in H.
    discriminate.
Qed.

(** C7.  When two distinct names of the list have the same initials and the
    earlier one is not listed again after the later one (as in every list of
    pairwise distinct names), [generate_city_prompts] still returns
    normally: the entry of these initials holds the last name that has them
    (the later name when no name after it has them too), the earlier name is
    not a value of the returned map, and the prompts of both names are in
    the prompt list. *)
Theorem generate_city_prompts_last_write_wins
    (cities l1 l2 l3 : list string) (earlier later : string) :
  Forall tokens_nonempty cities ->
  cities = l1 ++ earlier :: l2 ++ later :: l3 ->
  earlier <> later ->
  ~ In earlier l3 ->
  initials earlier = initials later ->
  exists prompts abbreviations,
    generate_city_prompts cities = Ok (prompts, abbreviations) /\
    dict_get (initials earlier) abbreviations =
      last_with_initials (initials earlier) cities /\
    (Forall (fun city => initials city <> initials later) l3 ->
     dict_get (initials earlier) abbreviations = Some later) /\
    ~ In earlier (values abbreviations) /\
    In (format_prompt earlier (initials earlier)) prompts /\
    In (format_prompt later (initials later)) prompts.
Proof.
  intros Htok Hcities Hdiff Hafter Hinit.
  destruct (generate_city_prompts_ok cities Htok)
    as (abbreviations & Hrun & Hkeys & Hget).
  eexists _, abbreviations. split; [exact Hrun|].
  split; [apply Hget|]. split; [|split; [|split]].
  - intros Hl3. rewrite Hget, Hcities.
    unfold last_with_initials.
    replace (l1 ++ earlier :: l2 ++ later :: l3)
      with ((l1 ++ earlier :: l2) ++ later :: l3)
      by (rewrite <- app_assoc; reflexivity).
    rewrite rev_app_distr. simpl rev. rewrite <- app_assoc. simpl.
    assert (Hnone : forall tail,
      List.find (fun city => String.eqb (initials city) (initials earlier))
                (rev l3 ++ tail) =
      List.find (fun city => String.eqb (initials city) (initials earlier)) tail).
    { intros tail. rewrite Forall_forall in Hl3.
      assert (Hrev : forall x, In x (rev l3) -> initials x <> initials later)
        by (intros x Hx; apply Hl3; now apply in_rev).
      induction (rev l3) as [|x r IHr]; simpl; [reflexivity|].
      destruct (String.eqb (initials x) (initials earlier)) eqn:E.
      - apply String.eqb_eq in E. exfalso. apply (Hrev x); [now left|congruence].
      - apply IHr. intros y Hy. apply Hrev. now right. }
    rewrite Hnone. simpl. rewrite Hinit, String.eqb_refl. reflexivity.
  - intros Hin. apply in_values_iff in Hin as [k Hin].
    apply (in_dict_get _ _ _ Hkeys) in Hin. rewrite Hget in Hin.
    apply last_with_initials_split in Hin as (before & after & Heq & Hk & Hlast).
    rewrite Hcities in Heq.
    replace (l1 ++ earlier :: l2 ++ later :: l3)
      with ((l1 ++ earlier :: l2) ++ later :: l3) in Heq
      by (rewrite <- app_assoc; reflexivity).
    destruct (split_positions _ _ _ _ _ _ Heq) as [H|[H|H]].
    + apply (Hlast later H). congruence.
    + now apply Hdiff.
    + contradiction.
  - rewrite Hcities. apply in_map_iff. exists earlier. split; [reflexivity|].
    apply in_or_app. right. now left.
  - rewrite Hcities. apply in_map_iff. exists later. split; [reflexivity|].
    apply in_or_app. right. right. apply in_or_app. right. now left.
Qed.

Lemma generate_city_prompts_last_write_wins_witness :
  exists prompts abbreviations,
    generate_city_prompts ["New York"; "Chicago"; "North Yard"] =
      Ok (prompts, abbreviations) /\
    dict_get (initials "New York") abbreviations =
      last_with_initials (initials "New York") ["New York"; "Chicago"; "North Yard"] /\
    (Forall (fun city => initials city <> initials "North Yard") [] ->
     dict_get (initials "New York") abbreviations = Some "North Yard") /\
    ~ In "New York" (values abbreviations) /\
    In (format_prompt "New York" (initials "New York")) prompts /\
    In (format_prompt "North Yard" (initials "North Yard")) prompts.
Proof.
  apply (generate_city_prompts_last_write_wins
           ["New York"; "Chicago"; "North Yard"] [] ["Chicago"] [] "New York" "North Yard").
  - repeat constructor; discriminate.
  - reflexivity.
  - discriminate.
  - intros [].
  - reflexivity.
Defined.

(** C9.  [abbreviate_initial] returns the initials exactly when every
    space-separated token of the name is non-empty and raises [IndexError]
    otherwise; a name has an empty token exactly when it is empty or has a
    leading, trailing or doubled space; [generate_city_prompts] returns
    exactly when every name of the list meets the condition. *)
Theorem abbreviate_initial_defined_iff :
  (forall city, tokens_nonempty city -> abbreviate_initial city = Ok (initials city)) /\
  (forall city, ~ tokens_nonempty city -> abbreviate_initial city = Err IndexError) /\
  (forall city, ~ tokens_nonempty city <->
     city = EmptyString \/ (exists t : string, city = (" " ++ t)%string) \/
     (exists t : string, city = (t ++ " ")%string) \/ contains "  " city) /\
  (forall cities, Forall tokens_nonempty cities ->
     exists r, generate_city_prompts cities = Ok r) /\
  (forall cities, ~ Forall tokens_nonempty cities ->
     generate_city_prompts cities = Err IndexError).
Proof.
  split; [exact abbreviate_initial_ok|].
  split; [exact abbreviate_initial_err|].
  split; [|split].
  - intros city. rewrite <- empty_token_iff, tokens_nonempty_iff.
    split; [|tauto]. intros H.
    destruct (in_dec string_dec EmptyString (split " " city)); tauto.
  - intros cities H. unfold generate_city_prompts.
    rewrite (city_loop_ok cities [] [] H). eauto.
  - intros cities H. apply city_loop_err, H.
Qed.

(** ** The enumeration step of [build_options] *)

Lemma last_item_snoc (firsts : list string) (last : string) :
  last_item (firsts ++ [last]) = Ok last.
Proof. unfold last_item. now rewrite rev_app_distr. Qed.

(** With two or more prompts the text is the leading ones joined by a comma
    and a space, then the last one after [" or "]. *)
Lemma enumerate_two_or_more (firsts : list string) (last : string) :
  firsts <> [] ->
  (env <- enumerate (firsts ++ [last]) ;; read_local "options" (options env)) =
  Ok (String.concat ", " firsts ++ " or " ++ last)%string.
Proof.
  intros H. unfold enumerate.
  assert (Hlen : (List.length (firsts ++ [last]) =? 1)%nat = false).
  { rewrite length_app. simpl. destruct firsts; [contradiction|]. simpl.
    apply Nat.eqb_neq. lia. }
  rewrite Hlen, last_item_snoc, removelast_last. reflexivity.
Qed.

(** With a single prompt only [city_part] is assigned. *)
Lemma enumerate_single (prompt : string) :
  enumerate [prompt] = Ok {| city_part := Some prompt; options := None |}.
Proof. reflexivity. Qed.

(** C4.  When the generator yields a single prompt, [build_options] raises
    [UnboundLocalError]: the branch for one prompt assigns [city_part] and
    the function returns [options], which that branch leaves unassigned. *)
Theorem build_options_single_prompt (names : list string) (abbreviation_type : Z)
    (prompt : string) (abbreviations : dict string) :
  (if (abbreviation_type =? ACRONYMN)%Z then generate_city_prompts names
   else generate_name_prompts names) = Ok ([prompt], abbreviations) ->
  build_options names abbreviation_type = Err (UnboundLocalError "options").
Proof.
  intros H. unfold build_options. rewrite H. reflexivity.
Qed.

Lemma build_options_single_prompt_witness :
  build_options ["Chicago"] ACRONYMN = Err (UnboundLocalError "options").
Proof.
  apply (build_options_single_prompt ["Chicago"] ACRONYMN "Chicago [C]" [("C", "Chicago")]).
  reflexivity.
Defined.

(** ** Catch-all names *)

Lemma potential_snoc (before : list string) (name : string) :
  potential (before ++ [name]) = register_name name (potential before).
Proof. unfold potential. now rewrite fold_left_app. Qed.

Lemma potential_app (before after : list string) :
  potential (before ++ after) =
  fold_left (fun d name => register_name name d) after (potential before).
Proof. unfold potential. now rewrite fold_left_app. Qed.



Lemma register_name_plain (name : string) (d : dict (option string)) :
  ~ contains "not" name -> ~ contains "all" name ->
  register_name name d = prefix_loop (String.length name) 1 name d.
Proof.
  intros Hnot Hall. unfold register_name.
  destruct (negb (find "not" name =? -1)%Z) eqn:E.
  - apply find_test in E. contradiction.
  - destruct (negb (find "all" name =? -1)%Z) eqn:E2; [|reflexivity].
    apply find_test in E2. contradiction.
Qed.


(** ** The retry loop of [show_prompt] *)

Section SelectionFacts.
Variable lower : string -> string.

Lemma matches_test (raw key value : string) :
  (String.eqb (lower raw) (lower key) || String.eqb (lower raw) (lower value)) = true <->
  matches lower raw (key, value).
Proof.
  unfold matches. simpl. now rewrite orb_true_iff, !String.eqb_eq.
Qed.

Lemma scan_some (raw : string) (prompt_map : dict string) (name : string) :
  scan lower raw prompt_map = Some name <-> first_match lower raw prompt_map name.
Proof.
  induction prompt_map as [|[key value] items IH]; simpl.
  - split; [discriminate|]. intros (before & k & after & H & _).
    destruct before; discriminate.
  - destruct (String.eqb (lower raw) (lower key) || String.eqb (lower raw) (lower value))
      eqn:E.
    + apply matches_test in E. split.
      * intros [= ->]. exists [], key, items. repeat split; auto.
      * intros (before & k & after & H & Hm & Hbefore).
        destruct before as [|e before]; simpl in H.
        -- injection H as _ -> _. reflexivity.
        -- injection H as <- _. exfalso. apply (Hbefore (key, value)); [now left|exact E].
    + assert (Hno : ~ matches lower raw (key, value)).
      { intros H. apply matches_test in H. congruence. }
      rewrite IH. split.
      * intros (before & k & after & -> & Hm & Hbefore).
        exists ((key, value) :: before), k, after. repeat split; auto.
        intros e [<-|He]; auto.
      * intros (before & k & after & H & Hm & Hbefore).
        destruct before as [|e before]; simpl in H.
        -- injection H as -> -> _. contradiction.
        -- injection H as _ ->. exists before, k, after. repeat split; auto.
           intros e' He'. apply Hbefore. now right.
Qed.

Lemma scan_none (raw : string) (prompt_map : dict string) :
  scan lower raw prompt_map = None <-> no_match lower raw prompt_map.
Proof.
  unfold no_match. induction prompt_map as [|[key value] items IH]; simpl.
  - split; [intros _ e []|reflexivity].
  - destruct (String.eqb (lower raw) (lower key) || String.eqb (lower raw) (lower value))
      eqn:E.
    + apply matches_test in E. split; [discriminate|].
      intros H. exfalso. apply (H (key, value)); [now left|exact E].
    + rewrite IH. split.
      * intros H e [<-|He]; [|auto]. intros Hm. apply matches_test in Hm. congruence.
      * intros H e He. apply H. now right.
Qed.

Lemma scan_value (raw : string) (prompt_map : dict string) (name : string) :
  scan lower raw prompt_map = Some name -> In name (values prompt_map).
Proof.
  intros H. apply scan_some in H as (before & key & after & -> & _).
  apply in_values_iff. exists key. apply in_or_app. right. now left.
Qed.

Lemma attempts_value (remaining : nat) (prompt_map : dict string)
    (raw : option string) (stdin rest : list string) (selected : string) :
  attempts lower remaining prompt_map raw stdin = (Ok selected, rest) ->
  In selected (values prompt_map).
Proof.
  revert raw stdin. induction remaining as [|n IH]; intros raw stdin; simpl.
  - destruct raw; discriminate.
  - destruct stdin as [|line stdin]; [discriminate|].
    destruct (scan lower line prompt_map) as [v|] eqn:E.
    + intros [= <- _]. eapply scan_value, E.
    + apply IH.
Qed.
End SelectionFacts.

Lemma show_prompt_unfold (lower : string -> string) (names : list string)
    (abbreviation_type : Z) (beginning word_part : string)
    (prompt_map : dict string) (stdin : list string) :
  build_options names abbreviation_type = Ok (word_part, prompt_map) ->
  show_prompt lower names abbreviation_type beginning stdin =
  attempts lower MAX_PROMPTS prompt_map None stdin.
Proof. intros H. unfold show_prompt. now rewrite H. Qed.

Ltac scan_cases lower prompt_map :=
  repeat (simpl;
          match goal with
          | |- context [scan lower ?r prompt_map] =>
              let E := fresh "E" in destruct (scan lower r prompt_map) eqn:E
          end).

Ltac scan_facts :=
  repeat match goal with
    | H : scan _ _ _ = Some _ |- _ => apply scan_some in H
    | H : scan _ _ _ = None |- _ => apply scan_none in H
    end.

(** C5.  For every abbreviation map and every sequence of input lines the
    retry loop of [show_prompt] reads at most three lines; it returns the
    name of the first entry selected by the first of these lines that
    selects one (by key or by full name, case-insensitively), consuming the
    lines up to that one; and it raises the invalid-selection exception
    exactly when three lines were read and none selects an entry, the
    message carrying the third line, or ['']  when that line is empty. *)
Theorem show_prompt_attempts (lower : string -> string)
    (prompt_map : dict string) (stdin : list string) :
  (exists n, n <= 3 /\
     snd (attempts lower MAX_PROMPTS prompt_map None stdin) = skipn n stdin) /\
  (forall misses raw rest name,
     stdin = misses ++ raw :: rest ->
     List.length misses < 3 ->
     Forall (fun line => no_match lower line prompt_map) misses ->
     first_match lower raw prompt_map name ->
     attempts lower MAX_PROMPTS prompt_map None stdin = (Ok name, rest)) /\
  (forall name rest,
     attempts lower MAX_PROMPTS prompt_map None stdin = (Ok name, rest) ->
     exists misses raw,
       stdin = misses ++ raw :: rest /\ List.length misses < 3 /\
       Forall (fun line => no_match lower line prompt_map) misses /\
       first_match lower raw prompt_map name) /\
  (forall message rest,
     attempts lower MAX_PROMPTS prompt_map None stdin = (Err (Exception message), rest) <->
     exists r1 r2 r3,
       stdin = r1 :: r2 :: r3 :: rest /\
       no_match lower r1 prompt_map /\ no_match lower r2 prompt_map /\
       no_match lower r3 prompt_map /\
       message = ("Invalid selection: " ++ raw_or_quotes r3)%string) /\
  raw_or_quotes "" = "''" /\
  (forall raw, raw <> "" -> raw_or_quotes raw = raw) /\
  (forall names abbreviation_type beginning word_part,
     build_options names abbreviation_type = Ok (word_part, prompt_map) ->
     show_prompt lower names abbreviation_type beginning stdin =
     attempts lower MAX_PROMPTS prompt_map None stdin).
Proof.
  unfold MAX_PROMPTS. repeat split.
  - destruct stdin as [|r1 [|r2 [|r3 rest]]]; scan_cases lower prompt_map; simpl;
      first [ exists 0; split; [lia|reflexivity]
            | exists 1; split; [lia|reflexivity]
            | exists 2; split; [lia|reflexivity]
            | exists 3; split; [lia|reflexivity] ].
  - intros misses raw rest name -> Hlen Hmiss Hfirst.
    apply scan_some in Hfirst.
    destruct misses as [|m1 [|m2 [|m3 misses]]]; simpl in Hlen; try lia;
      repeat match goal with
        | H : Forall _ (_ :: _) |- _ => inversion H; clear H; subst
        end;
      repeat match goal with
        | H : no_match _ _ _ |- _ => apply scan_none in H
        end; simpl;
      repeat match goal with
        | H : scan _ _ _ = _ |- _ => rewrite H; clear H
        end; reflexivity.
  - intros name rest.
    destruct stdin as [|r1 [|r2 [|r3 tail]]]; scan_cases lower prompt_map;
      intros H; try discriminate; injection H as <- <-; scan_facts.
    + exists [], r1. repeat split; auto.
    + exists [], r1. repeat split; auto.
    + exists [r1], r2. repeat split; simpl; auto.
    + exists [], r1. repeat split; auto.
    + exists [r1], r2. repeat split; simpl; auto.
    + exists [r1; r2], r3. repeat split; simpl; auto.
  - destruct stdin as [|r1 [|r2 [|r3 tail]]]; scan_cases lower prompt_map;
      intros H; try discriminate; injection H as <- <-; scan_facts.
    exists r1, r2, r3. repeat split; auto.
  - intros (r1 & r2 & r3 & -> & H1 & H2 & H3 & ->). simpl.
    apply scan_none in H1, H2, H3. now rewrite H1, H2, H3.
  - intros raw H. destruct raw; [contradiction|reflexivity].
  - intros names abbreviation_type beginning word_part H.
    exact (show_prompt_unfold lower names abbreviation_type beginning word_part
             prompt_map stdin H).
Qed.

(** ** Values held by the dictionaries *)

Lemma in_dict_set {V : Type} (k k' : string) (v v' : V) (d : dict V) :
  In (k', v') (dict_set k v d) -> (k' = k /\ v' = v) \/ In (k', v') d.
Proof.
  induction d as [|[k2 v2] d IH]; simpl.
  - intros [[= <- <-]|[]]. now left.
  - destruct (String.eqb k k2) eqn:E; simpl.
    + apply String.eqb_eq in E as <-. intros [[= <- <-]|H]; auto.
    + intros [H|H]; auto. destruct (IH H); auto.
Qed.

Lemma registered_dict_set (name : string) (k : string) (v : option string)
    (d : dict (option string)) :
  registered name (dict_set k v d) -> v = Some name \/ registered name d.
Proof.
  intros [key H]. apply in_dict_set in H as [[_ H]|H]; [now left|].
  right. now exists key.
Qed.

Lemma registered_prefix_loop (remaining length : nat) (name other : string)
    (d : dict (option string)) :
  registered other (prefix_loop remaining length name d) ->
  other = name \/ registered other d.
Proof.
  revert length d. induction remaining as [|n IH]; intros length d; simpl; auto.
  destruct (dict_get (slice_to length name) d) as [[previous|]|] eqn:E.
  - intros H. apply IH in H as [H|H]; auto.
    apply registered_dict_set in H as [H|H].
    + injection H as ->. right. exists (slice_to length name).
      now apply dict_get_in.
    + apply registered_dict_set in H as [H|H]; [discriminate|auto].
  - apply IH.
  - intros H. apply registered_dict_set in H as [H|H]; auto.
    injection H as ->. now left.
Qed.

Lemma registered_register_name (name other : string) (d : dict (option string)) :
  registered other (register_name name d) -> other = name \/ registered other d.
Proof.
  unfold register_name.
  destruct (negb (find "not" name =? -1)%Z);
    [|destruct (negb (find "all" name =? -1)%Z)].
  - intros H. apply registered_dict_set in H as [[= ->]|H]; auto.
  - intros H. apply registered_dict_set in H as [[= ->]|H]; auto.
  - apply registered_prefix_loop.
Qed.

Lemma registered_potential (names : list string) (other : string) :
  registered other (potential names) -> In other names.
Proof.
  induction names as [|name names IH] using rev_ind.
  - intros [k []].
  - rewrite potential_snoc. intros H. apply in_or_app.
    apply registered_register_name in H as [->|H]; [right; now left|auto].
Qed.

Lemma NoDup_keys_prefix_loop (remaining length : nat) (name : string)
    (d : dict (option string)) :
  NoDup (keys d) -> NoDup (keys (prefix_loop remaining length name d)).
Proof.
  revert length d. induction remaining as [|n IH]; intros length d H; simpl; auto.
  destruct (dict_get (slice_to length name) d) as [[previous|]|].
  - apply IH. now do 2 apply NoDup_keys_dict_set.
  - now apply IH.
  - now apply NoDup_keys_dict_set.
Qed.

Lemma NoDup_keys_potential (names : list string) : NoDup (keys (potential names)).
Proof.
  induction names as [|name names IH] using rev_ind; [constructor|].
  rewrite potential_snoc. unfold register_name.
  destruct (negb (find "not" name =? -1)%Z);
    [|destruct (negb (find "all" name =? -1)%Z)].
  - now apply NoDup_keys_dict_set.
  - now apply NoDup_keys_dict_set.
  - now apply NoDup_keys_prefix_loop.
Qed.

(** ** The final loop of [generate_name_prompts] *)

Lemma collect_abbreviations_in (items : dict (option string))
    (a m : dict string) (k v : string) :
  In (k, v) (fst (collect items a m)) -> In (k, v) a \/ In (k, Some v) items.
Proof.
  revert a m. induction items as [|[key [value|]] items IH]; intros a m; simpl; auto.
  - intros H. apply IH in H as [H|H]; auto.
    apply in_dict_set in H as [[-> ->]|H]; auto.
  - intros H. apply IH in H as [H|H]; auto.
Qed.

Lemma collect_map_get (items : dict (option string)) (a m : dict string)
    (name key : string) :
  dict_get name (snd (collect items a m)) = Some key ->
  dict_get name m = Some key \/ In (key, Some name) items.
Proof.
  revert a m. induction items as [|[k [value|]] items IH]; intros a m; simpl; auto.
  - intros H. apply IH in H as [H|H]; auto.
    rewrite dict_get_set in H. destruct (String.eqb value name) eqn:E; auto.
    apply String.eqb_eq in E as ->. injection H as ->. auto.
  - intros H. apply IH in H as [H|H]; auto.
Qed.

Lemma collect_map_defined (items : dict (option string)) (a m : dict string)
    (name : string) :
  registered name items \/ (exists key, dict_get name m = Some key) ->
  exists key, dict_get name (snd (collect items a m)) = Some key.
Proof.
  revert a m. induction items as [|[k [value|]] items IH]; intros a m; simpl.
  - intros [[key []]|H]; auto.
  - intros [[key [[= -> ->]|H]]|[key H]]; apply IH.
    + right. exists key. apply dict_get_set_eq.
    + left. now exists key.
    + right. rewrite dict_get_set. destruct (String.eqb value name); eauto.
  - intros [[key [[=]|H]]|H]; apply IH; auto. left. now exists key.
Qed.

(** Every entry of the inverse map points to a key that [abbreviations]
    maps back to the name. *)
Lemma collect_inverse (items : dict (option string)) (a m : dict string) :
  NoDup (keys items) ->
  (forall k, In k (keys items) -> dict_get k a = None) ->
  (forall name key, dict_get name m = Some key -> dict_get key a = Some name) ->
  forall name key,
    dict_get name (snd (collect items a m)) = Some key ->
    dict_get key (fst (collect items a m)) = Some name.
Proof.
  revert a m. induction items as [|[k [value|]] items IH]; intros a m Hnd Hfresh Hinv;
    simpl; auto.
  - inversion Hnd as [|? ? Hnotin Hnd']; subst. apply IH; auto.
    + intros k' Hk'. rewrite dict_get_set_ne; [apply Hfresh; now right|].
      intros ->. contradiction.
    + intros name key. rewrite dict_get_set.
      destruct (String.eqb value name) eqn:E.
      * apply String.eqb_eq in E as ->. intros [= <-]. apply dict_get_set_eq.
      * intros H. pose proof (Hinv _ _ H) as Hkey.
        rewrite dict_get_set_ne; auto.
        intros ->. rewrite (Hfresh key) in Hkey; [discriminate|now left].
  - inversion Hnd; subst. apply IH; auto. intros k' Hk'. apply Hfresh. now right.
Qed.

Lemma generate_name_prompts_unfold (names : list string) :
  generate_name_prompts names =
  (prompts <- comprehension
                (fun name =>
                   key <- subscript (snd (collect (potential names) [] [])) name ;;
                   Ok (format_prompt name key)) names ;;
   Ok (prompts, fst (collect (potential names) [] []))).
Proof.
  unfold generate_name_prompts. destruct (collect (potential names) [] []). reflexivity.
Qed.

Lemma Forall2_in_left {A B : Type} (R : A -> B -> Prop) (xs : list A) (ys : list B)
    (x : A) :
  Forall2 R xs ys -> In x xs -> exists y, In y ys /\ R x y.
Proof.
  induction 1 as [|a b xs ys Hab _ IH]; intros Hin; [contradiction|].
  destruct Hin as [->|Hin].
  - exists b. split; [now left|exact Hab].
  - destruct (IH Hin) as (y & Hy & HR). exists y. split; [now right|exact HR].
Qed.

Lemma comprehension_first_err {A B : Type} (f : A -> result B) (xs : list A) :
  (exists x, In x xs /\ exists e, f x = Err e) ->
  exists x e, In x xs /\ f x = Err e /\ comprehension f xs = Err e.
Proof.
  induction xs as [|y xs IH]; intros (x & Hin & e & He); [contradiction|].
  simpl. destruct (f y) as [b|e'] eqn:Hy; simpl.
  - destruct Hin as [->|Hin]; [congruence|].
    destruct IH as (x' & e2 & Hin' & Hx' & ->); [eauto|].
    exists x', e2. simpl. auto.
  - exists y, e'. auto.
Qed.

(** A normal return lists one prompt per name, in order, built from a key
    that the returned map sends back to the name. *)
Lemma generate_name_prompts_ok_inv (names prompts : list string) (m : dict string) :
  generate_name_prompts names = Ok (prompts, m) ->
  Forall2 (fun name prompt =>
             exists key, dict_get key m = Some name /\ prompt = format_prompt name key)
          names prompts /\
  (forall key name, In (key, name) m -> registered name (potential names)).
Proof.
  rewrite generate_name_prompts_unfold.
  destruct (comprehension _ names) as [ps|e] eqn:E; simpl; [|discriminate].
  intros [= <- <-]. split.
  - apply comprehension_inv in E.
    eapply Forall2_impl; [|exact E]. simpl. intros name prompt H.
    unfold subscript in H.
    destruct (dict_get name (snd (collect (potential names) [] []))) as [key|] eqn:Hk;
      simpl in H; [|discriminate].
    injection H as <-. exists key. split; [|reflexivity].
    apply (collect_inverse (potential names) [] []); auto.
    + apply NoDup_keys_potential.
    + discriminate.
  - intros key name H. apply collect_abbreviations_in in H as [[]|H]. now exists key.
Qed.

Lemma generate_name_prompts_ok_iff (names : list string) :
  (exists r, generate_name_prompts names = Ok r) <->
  (forall name, In name names -> registered name (potential names)).
Proof.
  rewrite generate_name_prompts_unfold. split.
  - intros [r H] name Hin.
    destruct (comprehension _ names) as [ps|e] eqn:E; simpl in H; [|discriminate].
    apply comprehension_inv in E.
    destruct (Forall2_in_left _ _ _ _ E Hin) as (prompt & _ & Hp).
    unfold subscript in Hp.
    destruct (dict_get name (snd (collect (potential names) [] []))) as [key|] eqn:Hk;
      simpl in Hp; [|discriminate].
    apply collect_map_get in Hk as [Hk|Hk]; [discriminate|]. now exists key.
  - intros H.
    rewrite (comprehension_ok _
               (fun name =>
                  match dict_get name (snd (collect (potential names) [] [])) with
                  | Some key => format_prompt name key
                  | None => name
                  end)); simpl; eauto.
    intros name Hin. unfold subscript.
    destruct (collect_map_defined (potential names) [] [] name (or_introl (H name Hin)))
      as [key ->].
    reflexivity.
Qed.

Lemma generate_name_prompts_unregistered (names : list string) :
  (exists name, In name names /\ ~ registered name (potential names)) ->
  exists name, In name names /\ ~ registered name (potential names) /\
               generate_name_prompts names = Err (KeyError name).
Proof.
  intros (name & Hin & Hno). rewrite generate_name_prompts_unfold.
  assert (Hfail : forall x, ~ registered x (potential names) ->
            (key <- subscript (snd (collect (potential names) [] [])) x ;;
             Ok (format_prompt x key)) = Err (KeyError x)).
  { intros x Hx. unfold subscript.
    destruct (dict_get x (snd (collect (potential names) [] []))) as [key|] eqn:Hk;
      [|reflexivity].
    apply collect_map_get in Hk as [Hk|Hk]; [discriminate|].
    exfalso. apply Hx. now exists key. }
  destruct (comprehension_first_err
              (fun x => key <- subscript (snd (collect (potential names) [] [])) x ;;
                        Ok (format_prompt x key)) names)
    as (x & e & Hx & Hfx & Hall).
  { exists name. split; [exact Hin|]. rewrite (Hfail name Hno). eauto. }
  exists x. split; [exact Hx|].
  assert (Hnx : ~ registered x (potential names)).
  { intros Hreg.
    destruct (collect_map_defined (potential names) [] [] x (or_introl Hreg)) as [key Hk].
    unfold subscript in Hfx. rewrite Hk in Hfx. discriminate. }
  split; [exact Hnx|]. rewrite Hall. simpl. rewrite (Hfail x Hnx) in Hfx.
  now injection Hfx as <-.
Qed.

Lemma generate_city_prompts_values (cities prompts : list string) (m : dict string) :
  generate_city_prompts cities = Ok (prompts, m) ->
  forall name, In name (values m) -> In name cities.
Proof.
  intros H name Hin.
  destruct (Forall_dec tokens_nonempty tokens_nonempty_dec cities) as [Htok|Htok].
  - destruct (generate_city_prompts_ok cities Htok) as (m' & Hrun & Hnd & Hget).
    rewrite Hrun in H. injection H as _ <-.
    apply in_values_iff in Hin as [k Hin].
    apply (in_dict_get _ _ _ Hnd) in Hin. rewrite Hget in Hin.
    unfold last_with_initials in Hin. apply find_some in Hin as [Hin _].
    now apply in_rev.
  - unfold generate_city_prompts in H. rewrite (city_loop_err _ _ _ Htok) in H.
    discriminate.
Qed.

Lemma generate_name_prompts_values (names prompts : list string) (m : dict string) :
  generate_name_prompts names = Ok (prompts, m) ->
  forall name, In name (values m) -> In name names.
Proof.
  intros H name Hin. apply in_values_iff in Hin as [k Hin].
  apply registered_potential.
  exact (proj2 (generate_name_prompts_ok_inv names prompts m H) k name Hin).
Qed.

Lemma build_options_values (names : list string) (abbreviation_type : Z)
    (word_part : string) (prompt_map : dict string) :
  build_options names abbreviation_type = Ok (word_part, prompt_map) ->
  forall name, In name (values prompt_map) -> In name names.
Proof.
  unfold build_options.
  destruct (abbreviation_type =? ACRONYMN)%Z.
  - destruct (generate_city_prompts names) as [[prompts m]|e] eqn:E; simpl; [|discriminate].
    destruct (enumerate prompts) as [env|e]; simpl; [|discriminate].
    destruct (read_local "options" (options env)); simpl; [|discriminate].
    intros [= _ <-]. eapply generate_city_prompts_values, E.
  - destruct (generate_name_prompts names) as [[prompts m]|e] eqn:E; simpl; [|discriminate].
    destruct (enumerate prompts) as [env|e]; simpl; [|discriminate].
    destruct (read_local "options" (options env)); simpl; [|discriminate].
    intros [= _ <-]. eapply generate_name_prompts_values, E.
Qed.

(** C10.  When [show_prompt] returns normally, the string it returns is a
    value of the abbreviation map that [build_options] built from the
    supplied names, and hence one of these names, whatever lines were
    typed. *)
Theorem show_prompt_returns_mapped_name (lower : string -> string)
    (names : list string) (abbreviation_type : Z) (beginning : string)
    (stdin rest : list string) (selected : string) :
  show_prompt lower names abbreviation_type beginning stdin = (Ok selected, rest) ->
  exists word_part prompt_map,
    build_options names abbreviation_type = Ok (word_part, prompt_map) /\
    In selected (values prompt_map) /\
    In selected names.
Proof.
  unfold show_prompt.
  destruct (build_options names abbreviation_type) as [[word_part prompt_map]|e] eqn:E;
    [|discriminate].
  intros H. exists word_part, prompt_map. split; [reflexivity|].
  assert (Hv : In selected (values prompt_map)) by (eapply attempts_value, H).
  split; [exact Hv|]. eapply build_options_values; eauto.
Qed.

Lemma show_prompt_returns_mapped_name_witness :
  exists word_part prompt_map,
    build_options ["Chicago"; "New York City"; "Washington"] ACRONYMN =
      Ok (word_part, prompt_map) /\
    In "Chicago" (values prompt_map) /\
    In "Chicago" ["Chicago"; "New York City"; "Washington"].
Proof.
  apply (show_prompt_returns_mapped_name ascii_lower
           ["Chicago"; "New York City"; "Washington"] ACRONYMN
           "Would you like to see data for" ["xyz"; "XYZ"; "c"] [] "Chicago").
  reflexivity.
Defined.

(** ** Names that lose their entry *)

(** C8.  A name displaced from a clashing prefix is stored under its prefix
    one longer by a plain assignment, whatever that key held: in the list
    below the third name, registered under ["not 1"], loses this only entry
    to the fifth and the call raises [KeyError].  Whenever
    [generate_name_prompts] returns normally, there is exactly one prompt per
    input name, in input order, built from a key that the returned map sends
    to the name, so every input name is a value of the map; and a name left
    without an entry makes the call raise [KeyError] instead of returning. *)
Theorem generate_name_prompts_all_or_nothing :
  (forall remaining length name d previous,
     dict_get (slice_to length name) d = Some (Some previous) ->
     prefix_loop (S remaining) length name d =
     prefix_loop remaining (S length) name
       (dict_set (slice_to (length + 1) previous) (Some previous)
          (dict_set (slice_to length name) None d))) /\
  (dict_get "not 1" (potential ["nonea"; "noneb"; "not 1"; "nonec"]) =
     Some (Some "not 1") /\
   dict_get "not 1"
     (potential ["nonea"; "noneb"; "not 1"; "nonec"; "not 1x"; "noned"]) =
     Some (Some "not 1x") /\
   ~ registered "not 1"
       (potential ["nonea"; "noneb"; "not 1"; "nonec"; "not 1x"; "noned"]) /\
   generate_name_prompts ["nonea"; "noneb"; "not 1"; "nonec"; "not 1x"; "noned"] =
     Err (KeyError "not 1")) /\
  (forall names prompts m,
     generate_name_prompts names = Ok (prompts, m) ->
     List.length prompts = List.length names /\
     Forall2 (fun name prompt =>
                exists key, dict_get key m = Some name /\
                            prompt = format_prompt name key) names prompts /\
     forall name, In name names -> In name (values m)) /\
  (forall names,
     (exists name, In name names /\ ~ registered name (potential names)) ->
     exists name, In name names /\ ~ registered name (potential names) /\
                  generate_name_prompts names = Err (KeyError name)).
Proof.
  split; [|split; [|split]].
  - intros remaining length name d previous H. simpl. now rewrite H.
  - repeat split; try reflexivity.
    intros [key H]. vm_compute in H.
    repeat (destruct H as [H|H]; [discriminate H|]). exact H.
  - intros names prompts m H.
    destruct (generate_name_prompts_ok_inv names prompts m H) as [HF _].
    split; [symmetry; eapply Forall2_length, HF|]. split; [exact HF|].
    intros name Hin.
    destruct (Forall2_in_left _ _ _ _ HF Hin) as (prompt & _ & key & Hkey & _).
    apply in_values_iff. exists key. now apply dict_get_in.
  - exact generate_name_prompts_unregistered.
Qed.

(** ** Prefixes *)

Lemma startswith_slice (k s : string) :
  startswith k s = true <-> slice_to (String.length k) s = k.
Proof.
  revert s. induction k as [|a k IH]; intros [|b s]; simpl; try tauto.
  - split; discriminate.
  - rewrite andb_true_iff, Ascii.eqb_eq, IH. split.
    + intros [-> ->]. reflexivity.
    + intros [= -> H]. auto.
Qed.

Lemma startswith_slice_to (l : nat) (s : string) : startswith (slice_to l s) s = true.
Proof.
  revert s. induction l as [|l IH]; intros [|c s]; simpl; auto.
  now rewrite Ascii.eqb_refl, IH.
Qed.

Lemma startswith_length (k s : string) :
  startswith k s = true -> String.length k <= String.length s.
Proof.
  intros H. apply startswith_slice in H. rewrite <- H at 1.
  rewrite slice_to_length. lia.
Qed.

Lemma startswith_slice_eq (k s : string) (l : nat) :
  startswith k s = true -> l <= String.length k -> slice_to l k = slice_to l s.
Proof.
  intros H Hl. apply startswith_slice in H. rewrite <- H at 1.
  rewrite slice_to_slice_to. f_equal. lia.
Qed.

Lemma startswith_trans (a b c : string) :
  startswith a b = true -> startswith b c = true -> startswith a c = true.
Proof.
  intros Hab Hbc. apply startswith_slice.
  rewrite <- (startswith_slice_eq b c (String.length a) Hbc (startswith_length _ _ Hab)).
  now apply startswith_slice.
Qed.

Lemma startswith_same_length (a b : string) :
  startswith a b = true -> String.length b <= String.length a -> a = b.
Proof.
  intros H Hl. apply startswith_slice in H. rewrite <- H. now apply slice_to_all.
Qed.

Lemma slice_to_length_le (l : nat) (s : string) :
  l <= String.length s -> String.length (slice_to l s) = l.
Proof. intros H. rewrite slice_to_length. lia. Qed.

Lemma nonempty_length (s : string) : s <> EmptyString <-> 1 <= String.length s.
Proof.
  destruct s; simpl; split; intros H; try lia; congruence.
Qed.

(** ** The prefix search on prefix-free names *)

Section PrefixSearch.
Variable done : list string.
Variable name : string.
Hypothesis name_nonempty : name <> EmptyString.
Hypothesis name_new : ~ In name done.
Hypothesis name_no_prefix : forall a, In a done -> startswith name a <> true.
Hypothesis name_no_extension : forall a, In a done -> startswith a name <> true.

Lemma search_start (d : dict (option string)) :
  abbreviates done d -> searching done name 1 d.
Proof.
  intros [Hlive Hdead Htotal Hone Hunique Hdown].
  constructor; auto. intros l Hl. lia.
Qed.

Lemma search_skip (length : nat) (d : dict (option string)) :
  searching done name length d ->
  dict_get (slice_to length name) d = Some None ->
  searching done name (S length) d.
Proof.
  intros [Hlive Hdead Htotal Hone Hunique Hdown Hpassed] Hnone.
  constructor; auto.
  - intros k Hk. destruct (Hdead k Hk) as [H|(Hlen & Hpre & Ha)]; [now left|].
    right. split; [lia|auto].
  - intros l Hl. destruct (Nat.eq_dec l length) as [->|Hne]; [exact Hnone|].
    apply Hpassed. lia.
Qed.

(** An exhausted search is impossible: the whole name would be marked
    [None], hence be a prefix of a processed name. *)
Lemma search_not_exhausted (d : dict (option string)) :
  searching done name (S (String.length name)) d -> False.
Proof.
  intros [Hlive Hdead Htotal Hone Hunique Hdown Hpassed].
  assert (Hlen : 1 <= String.length name) by now apply nonempty_length.
  assert (Hnone : dict_get name d = Some None).
  { rewrite <- (slice_to_all (String.length name) name) at 1 by lia.
    apply Hpassed. lia. }
  destruct (Hdead name Hnone) as [(a & b & Ha & _ & _ & Hpa & _)|(_ & _ & a & Ha & Hpa)];
    exact (name_no_prefix a Ha Hpa).
Qed.

Lemma search_clash (length : nat) (d : dict (option string)) (previous : string) :
  1 <= length <= String.length name ->
  searching done name length d ->
  dict_get (slice_to length name) d = Some (Some previous) ->
  searching done name (S length)
    (dict_set (slice_to (length + 1) previous) (Some previous)
       (dict_set (slice_to length name) None d)).
Proof.
  intros Hlen [Hlive Hdead Htotal Hone Hunique Hdown Hpassed] Hclash.
  set (k0 := slice_to length name) in *.
  set (k1 := slice_to (length + 1) previous).
  destruct (Hlive k0 previous Hclash) as (Hprev & Hk0ne & Hk0pre).
  assert (Hk0len : String.length k0 = length) by (apply slice_to_length_le; lia).
  assert (Hk0name : startswith k0 name = true) by apply startswith_slice_to.
  assert (Hprevlen : length < String.length previous).
  { destruct (Nat.lt_ge_cases length (String.length previous)) as [H|H]; [exact H|].
    exfalso. apply (name_no_extension previous Hprev).
    assert (Heq : k0 = previous) by (apply startswith_same_length; [exact Hk0pre|lia]).
    now rewrite <- Heq. }
  assert (Hk0prev : k0 = slice_to length previous).
  { apply startswith_slice in Hk0pre. now rewrite Hk0len in Hk0pre. }
  assert (Hk1len : String.length k1 = length + 1) by (apply slice_to_length_le; lia).
  assert (Hk1pre : startswith k1 previous = true) by apply startswith_slice_to.
  assert (Hk0k1 : startswith k0 k1 = true).
  { apply startswith_slice. rewrite Hk0len. unfold k1. rewrite slice_to_slice_to.
    replace (Nat.min length (length + 1)) with length by lia. now symmetry. }
  assert (Hne : k0 <> k1) by (intros E; rewrite E in Hk0len; lia).
  assert (Hk1free : dict_get k1 d = None).
  { destruct (dict_get k1 d) as [[w|]|] eqn:E; [exfalso|exfalso|reflexivity].
    - destruct (Hlive k1 w E) as (Hw & _ & Hk1w).
      assert (w = previous)
        by (apply (Hunique k0 previous w Hclash Hw); eapply startswith_trans; eauto).
      subst w. apply Hne. now apply (Hone k0 k1 previous).
    - destruct (Hdead k1 E) as [(a & b & Ha & Hb & Hab & Hpa & Hpb)|(Hl & _)]; [|lia].
      apply Hab. transitivity previous; [|symmetry];
        apply (Hunique k0 previous _ Hclash); auto; eapply startswith_trans; eauto. }
  set (d' := dict_set k1 (Some previous) (dict_set k0 None d)).
  assert (Hget1 : dict_get k1 d' = Some (Some previous)) by apply dict_get_set_eq.
  assert (Hget0 : dict_get k0 d' = Some None).
  { unfold d'. rewrite dict_get_set_ne by congruence. apply dict_get_set_eq. }
  assert (Hget : forall k, k <> k1 -> k <> k0 -> dict_get k d' = dict_get k d).
  { intros k H1 H0. unfold d'. now rewrite !dict_get_set_ne by congruence. }
  assert (Hcases : forall k v, dict_get k d' = Some (Some v) ->
            (k = k1 /\ v = previous) \/
            (k <> k1 /\ k <> k0 /\ v <> previous /\ dict_get k d = Some (Some v))).
  { intros k v H. destruct (string_dec k k1) as [->|H1].
    - rewrite Hget1 in H. injection H as <-. now left.
    - destruct (string_dec k k0) as [->|H0]; [rewrite Hget0 in H; discriminate|].
      rewrite (Hget k H1 H0) in H. right. repeat split; auto.
      intros ->. apply H0. now apply (Hone k k0 previous). }
  assert (Hnone : forall k, dict_get k d = Some None -> dict_get k d' = Some None).
  { intros k H. destruct (string_dec k k1) as [->|H1]; [congruence|].
    destruct (string_dec k k0) as [->|H0]; [exact Hget0|]. now rewrite Hget. }
  constructor.
  - intros k v H. destruct (Hcases k v H) as [[-> ->]|(_ & _ & _ & Hd)]; [|now apply Hlive].
    repeat split; auto. apply nonempty_length. lia.
  - intros k H. destruct (string_dec k k1) as [->|H1]; [congruence|].
    destruct (string_dec k k0) as [->|H0].
    + right. split; [lia|]. split; [exact Hk0name|]. now exists previous.
    + rewrite (Hget k H1 H0) in H.
      destruct (Hdead k H) as [Hl|(Hl & Hr)]; [now left|]. right. split; [lia|exact Hr].
  - intros v Hv. destruct (string_dec v previous) as [->|Hvp]; [now exists k1|].
    destruct (Htotal v Hv) as [k Hk]. exists k. rewrite Hget; [exact Hk| |].
    + intros ->. congruence.
    + intros ->. congruence.
  - intros k k' v H H'.
    destruct (Hcases k v H) as [[-> ->]|(_ & _ & Hv & Hd)];
      destruct (Hcases k' _ H') as [[-> E]|(_ & _ & Hv' & Hd')];
      try congruence.
    now apply (Hone k k' v).
  - intros k v w H Hw Hpw.
    destruct (Hcases k v H) as [[-> ->]|(_ & _ & _ & Hd)].
    + apply (Hunique k0 previous w Hclash Hw). eapply startswith_trans; eauto.
    + now apply (Hunique k v w).
  - intros k v l H Hl.
    destruct (Hcases k v H) as [[-> ->]|(_ & _ & _ & Hd)].
    + rewrite Hk1len in Hl. destruct (Nat.eq_dec l length) as [->|Hne'].
      * now rewrite <- Hk0prev.
      * apply Hnone. apply (Hdown k0 previous l Hclash). lia.
    + apply Hnone. now apply (Hdown k v l).
  - intros l Hl. destruct (Nat.eq_dec l length) as [->|Hne']; [exact Hget0|].
    apply Hnone. apply Hpassed. lia.
Qed.

Lemma search_register (length : nat) (d : dict (option string)) :
  1 <= length <= String.length name ->
  searching done name length d ->
  dict_get (slice_to length name) d = None ->
  abbreviates (done ++ [name]) (dict_set (slice_to length name) (Some name) d).
Proof.
  intros Hlen [Hlive Hdead Htotal Hone Hunique Hdown Hpassed] Hfree.
  set (kx := slice_to length name) in *.
  assert (Hkxlen : String.length kx = length) by (apply slice_to_length_le; lia).
  assert (Hkxname : startswith kx name = true) by apply startswith_slice_to.
  assert (Hclean : forall k v, dict_get k d = Some (Some v) ->
                               startswith k name = true -> False).
  { intros k v Hk Hpre.
    destruct (Hlive k v Hk) as (Hv & Hkne & Hkv).
    apply nonempty_length in Hkne.
    pose proof (startswith_length _ _ Hpre) as Hkl.
    assert (Hkeq : slice_to (String.length k) name = k) by now apply startswith_slice.
    destruct (Nat.lt_total (String.length k) length) as [Hlt|[Heq|Hgt]].
    - rewrite <- Hkeq in Hk. rewrite Hpassed in Hk by lia. discriminate.
    - rewrite Heq in Hkeq. unfold kx in Hfree. congruence.
    - assert (Hd : dict_get (slice_to length v) d = Some None)
        by (apply (Hdown k v length Hk); lia).
      rewrite <- (startswith_slice_eq k v length Hkv) in Hd by lia.
      rewrite (startswith_slice_eq k name length Hpre) in Hd by lia.
      unfold kx in Hfree. congruence. }
  assert (Hfresh : forall w, In w done -> startswith kx w = true -> False).
  { intros w Hw Hpre. destruct (Htotal w Hw) as [kw Hkw].
    destruct (Hlive kw w Hkw) as (_ & Hkwne & Hkww).
    destruct (Nat.le_gt_cases (String.length kw) length) as [Hle|Hgt].
    - apply (Hclean kw w Hkw). apply startswith_trans with kx; [|exact Hkxname].
      apply startswith_slice.
      rewrite (startswith_slice_eq kx w (String.length kw) Hpre) by lia.
      now apply startswith_slice.
    - assert (Hd : dict_get (slice_to length w) d = Some None)
        by (apply (Hdown kw w length Hkw); lia).
      apply startswith_slice in Hpre. rewrite Hkxlen in Hpre.
      rewrite Hpre in Hd. congruence. }
  set (d' := dict_set kx (Some name) d).
  assert (Hgetx : dict_get kx d' = Some (Some name)) by apply dict_get_set_eq.
  assert (Hget : forall k, k <> kx -> dict_get k d' = dict_get k d).
  { intros k H. unfold d'. now rewrite dict_get_set_ne by congruence. }
  assert (Hcases : forall k v, dict_get k d' = Some (Some v) ->
            (k = kx /\ v = name) \/ (k <> kx /\ dict_get k d = Some (Some v))).
  { intros k v H. destruct (string_dec k kx) as [->|Hk].
    - rewrite Hgetx in H. injection H as <-. now left.
    - rewrite (Hget k Hk) in H. now right. }
  assert (Hnone : forall k, dict_get k d = Some None -> dict_get k d' = Some None).
  { intros k H. rewrite Hget; [exact H|]. intros ->. congruence. }
  constructor.
  - intros k v H. destruct (Hcases k v H) as [[-> ->]|[_ Hd]].
    + split; [apply in_or_app; right; now left|]. split; [|exact Hkxname].
      apply nonempty_length. lia.
    + destruct (Hlive k v Hd) as (Hv & Hr). split; [apply in_or_app; now left|exact Hr].
  - intros k H. destruct (string_dec k kx) as [->|Hk]; [congruence|].
    rewrite (Hget k Hk) in H.
    destruct (Hdead k H) as [(a & b & Ha & Hb & Hr)|(_ & Hpre & a & Ha & Hpa)].
    + exists a, b. repeat split; try (apply in_or_app; now left); apply Hr.
    + exists a, name. repeat split; auto.
      * apply in_or_app. now left.
      * apply in_or_app. right. now left.
      * intros ->. contradiction.
  - intros v Hv. apply in_app_or in Hv as [Hv|[<-|[]]].
    + destruct (Htotal v Hv) as [k Hk]. exists k. rewrite Hget; [exact Hk|].
      intros ->. congruence.
    + now exists kx.
  - intros k k' v H H'.
    destruct (Hcases k v H) as [[-> ->]|[_ Hd]];
      destruct (Hcases k' _ H') as [[-> E]|[_ Hd']]; try congruence.
    + exfalso. apply name_new. now destruct (Hlive k' name Hd').
    + subst v. exfalso. apply name_new. now destruct (Hlive k name Hd).
    + now apply (Hone k k' v).
  - intros k v w H Hw Hpw. apply in_app_or in Hw as [Hw|[<-|[]]].
    + destruct (Hcases k v H) as [[-> ->]|[_ Hd]].
      * exfalso. now apply (Hfresh w).
      * now apply (Hunique k v w).
    + destruct (Hcases k v H) as [[-> ->]|[_ Hd]]; [reflexivity|].
      exfalso. now apply (Hclean k v).
  - intros k v l H Hl. apply Hnone.
    destruct (Hcases k v H) as [[-> ->]|[_ Hd]].
    + apply Hpassed. lia.
    + now apply (Hdown k v l).
Qed.

Lemma prefix_loop_abbreviates (remaining length : nat) (d : dict (option string)) :
  remaining + length = S (String.length name) ->
  1 <= length ->
  searching done name length d ->
  abbreviates (done ++ [name]) (prefix_loop remaining length name d).
Proof.
  revert length d. induction remaining as [|n IH]; intros length d Hsum Hl Hs; simpl.
  - exfalso. replace length with (S (String.length name)) in Hs by lia.
    now apply (search_not_exhausted d).
  - destruct (dict_get (slice_to length name) d) as [[previous|]|] eqn:E.
    + apply IH; [lia|lia|]. apply search_clash; auto. lia.
    + apply IH; [lia|lia|]. now apply search_skip.
    + apply search_register; auto. lia.
Qed.
End PrefixSearch.

Lemma abbreviates_nil : abbreviates [] [].
Proof. constructor; simpl; try discriminate. intros v []. Qed.

Lemma potential_abbreviates (names : list string) :
  NoDup names -> plain_names names -> prefix_free names ->
  abbreviates names (potential names).
Proof.
  induction names as [|x names IH] using rev_ind; intros Hnd Hplain Hfree.
  - exact abbreviates_nil.
  - assert (Hx : In x (names ++ [x])) by (apply in_or_app; right; now left).
    assert (Hsub : forall a, In a names -> In a (names ++ [x]))
      by (intros a Ha; apply in_or_app; now left).
    assert (Hnew : ~ In x names).
    { apply NoDup_remove_2 with (l' := []) in Hnd. now rewrite app_nil_r in Hnd. }
    assert (Hnd' : NoDup names).
    { apply NoDup_remove_1 with (l' := []) in Hnd. now rewrite app_nil_r in Hnd. }
    destruct (Hplain x Hx) as (Hne & Hnot & Hall).
    rewrite potential_snoc, (register_name_plain x _ Hnot Hall).
    apply prefix_loop_abbreviates; auto.
    + intros a Ha Hpre. apply Hnew. rewrite (Hfree x a Hx (Hsub a Ha) Hpre). exact Ha.
    + intros a Ha Hpre. apply Hnew. rewrite <- (Hfree a x (Hsub a Ha) Hx Hpre). exact Ha.
    + lia.
    + apply search_start. apply IH; auto.
      * intros a Ha. apply Hplain. auto.
      * intros a b Ha Hb. apply Hfree; auto.
Qed.

Lemma collect_abbreviations_get (items : dict (option string)) (a m : dict string)
    (k : string) :
  NoDup (keys items) ->
  (forall k', In k' (keys items) -> dict_get k' a = None) ->
  dict_get k (fst (collect items a m)) =
  match dict_get k items with
  | Some (Some v) => Some v
  | Some None => None
  | None => dict_get k a
  end.
Proof.
  revert a m. induction items as [|[key [value|]] items IH]; intros a m Hnd Hfresh;
    simpl; [reflexivity| |]; inversion Hnd as [|? ? Hnotin Hnd']; subst.
  - rewrite IH; auto.
    + destruct (String.eqb k key) eqn:E.
      * apply String.eqb_eq in E as ->.
        apply dict_get_none in Hnotin. rewrite Hnotin. apply dict_get_set_eq.
      * apply String.eqb_neq in E.
        destruct (dict_get k items) as [[v|]|]; auto.
        apply dict_get_set_ne. congruence.
    + intros k' Hk'. rewrite dict_get_set_ne; [apply Hfresh; now right|].
      intros ->. contradiction.
  - rewrite IH; auto.
    + destruct (String.eqb k key) eqn:E; [|reflexivity].
      apply String.eqb_eq in E as ->.
      apply dict_get_none in Hnotin. rewrite Hnotin. apply Hfresh. now left.
    + intros k' Hk'. apply Hfresh. now right.
Qed.

Lemma NoDup_keys_collect (items : dict (option string)) (a m : dict string) :
  NoDup (keys a) -> NoDup (keys (fst (collect items a m))).
Proof.
  revert a m. induction items as [|[key [value|]] items IH]; intros a m H; simpl; auto.
  apply IH. now apply NoDup_keys_dict_set.
Qed.

(** C1 (amended).  On pairwise distinct, non-empty names without the
    substrings ["not"] and ["all"], none of which is a prefix of another,
    [generate_name_prompts] returns; the keys of the map are pairwise
    distinct and every name is the value of exactly one entry; the key of a
    name is a non-empty prefix of it that no other name starts with, and it
    is the shortest such: every shorter non-empty prefix of the name is
    shared with another name, whose own key agrees with it at that length;
    the prompts are those of the names with their keys, in input order. *)
Theorem generate_name_prompts_minimal_prefixes (names : list string) :
  NoDup names -> plain_names names -> prefix_free names ->
  exists prompts m,
    generate_name_prompts names = Ok (prompts, m) /\
    minimal_prefixes names prompts m.
Proof.
  intros Hnd Hplain Hfree.
  destruct (potential_abbreviates names Hnd Hplain Hfree)
    as [Hlive Hdead Htotal Hone Hunique Hdown].
  assert (Hreg : forall name, In name names -> registered name (potential names)).
  { intros name Hin. destruct (Htotal name Hin) as [k Hk]. exists k.
    now apply dict_get_in. }
  destruct (proj2 (generate_name_prompts_ok_iff names) Hreg) as [[prompts m] Hrun].
  exists prompts, m. split; [exact Hrun|]. unfold minimal_prefixes.
  destruct (generate_name_prompts_ok_inv names prompts m Hrun) as [HF _].
  assert (Hm : m = fst (collect (potential names) [] [])).
  { rewrite generate_name_prompts_unfold in Hrun.
    destruct (comprehension _ names); simpl in Hrun; [|discriminate].
    now injection Hrun as _ <-. }
  assert (Hkeys : NoDup (keys m)) by (rewrite Hm; apply NoDup_keys_collect; constructor).
  assert (Hentry : forall key name,
            In (key, name) m <-> dict_get key (potential names) = Some (Some name)).
  { intros key name. split.
    - intros H. apply (in_dict_get _ _ _ Hkeys) in H. rewrite Hm in H.
      rewrite collect_abbreviations_get in H;
        [|apply NoDup_keys_potential|intros k' _; reflexivity].
      destruct (dict_get key (potential names)) as [[v|]|]; try discriminate.
      now injection H as ->.
    - intros H. apply dict_get_in. rewrite Hm.
      rewrite collect_abbreviations_get;
        [|apply NoDup_keys_potential|intros k' _; reflexivity].
      now rewrite H. }
  split; [exact Hkeys|]. split; [exact HF|]. split.
  - intros name Hin. destruct (Htotal name Hin) as [key Hkey]. exists key.
    split; [now apply Hentry|].
    intros key' H'. apply Hentry in H'. now apply (Hone key' key name).
  - intros key name H. apply Hentry in H.
    destruct (Hlive key name H) as (Hin & Hne & Hpre).
    repeat split; auto.
    + intros other Hother Hdiff.
      destruct (startswith key other) eqn:E; [|reflexivity].
      exfalso. apply Hdiff. now apply (Hunique key name other).
    + intros l Hl.
      pose proof (startswith_length _ _ Hpre) as Hkl.
      assert (Hll : String.length (slice_to l name) = l)
        by (apply slice_to_length_le; lia).
      destruct (Hdead _ (Hdown key name l H Hl))
        as (a & b & Ha & Hb & Hab & Hpa & Hpb).
      assert (Hother : exists other, In other names /\ other <> name /\
                                     startswith (slice_to l name) other = true).
      { destruct (string_dec a name) as [->|Hane].
        - exists b. repeat split; auto.
        - exists a. repeat split; auto. }
      destruct Hother as (other & Hoin & Hodiff & Hopre).
      destruct (Htotal other Hoin) as [key' Hkey'].
      destruct (Hlive key' other Hkey') as (_ & _ & Hpre').
      exists key', other. split; [now apply Hentry|]. split; [exact Hodiff|].
      split; [exact Hopre|].
      destruct (Nat.le_gt_cases (String.length key') l) as [Hle|Hgt].
      * exfalso. apply Hodiff. symmetry. apply (Hunique key' other name Hkey' Hin).
        apply startswith_trans with (slice_to l name); [|apply startswith_slice_to].
        apply startswith_slice.
        rewrite (startswith_slice_eq _ _ (String.length key') Hopre) by lia.
        now apply startswith_slice.
      * rewrite (startswith_slice_eq key' other l Hpre') by lia.
        apply startswith_slice in Hopre. now rewrite Hll in Hopre.
Qed.

Lemma generate_name_prompts_minimal_prefixes_witness :
  exists prompts m,
    generate_name_prompts ["January"; "February"; "March"; "April"; "May"; "June"] =
      Ok (prompts, m) /\
    minimal_prefixes ["January"; "February"; "March"; "April"; "May"; "June"] prompts m.
Proof.
  apply (generate_name_prompts_minimal_prefixes
           ["January"; "February"; "March"; "April"; "May"; "June"]).
  - repeat constructor; simpl; intuition discriminate.
  - intros name [<-|[<-|[<-|[<-|[<-|[<-|[]]]]]]];
      (split; [discriminate|split; intros H; apply find_contains in H; now apply H]).
  - intros a b [<-|[<-|[<-|[<-|[<-|[<-|[]]]]]]] [<-|[<-|[<-|[<-|[<-|[<-|[]]]]]]] H;
      first [reflexivity|discriminate H].
Defined.

(** C1 (counterexample).  The names ["ab"] and ["a"] are distinct, free of
    spaces and of the substrings ["not"] and ["all"], and
    [generate_name_prompts] raises [KeyError] on them: the search for ["a"]
    ends without an entry for it. *)
Lemma generate_name_prompts_prefix_name_fails :
  NoDup ["ab"; "a"] /\
  (forall name, In name ["ab"; "a"] ->
     find " " name = (-1)%Z /\ find "not" name = (-1)%Z /\ find "all" name = (-1)%Z) /\
  potential ["ab"; "a"] = [("a", None); ("ab", Some "ab")] /\
  generate_name_prompts ["ab"; "a"] = Err (KeyError "a").
Proof.
  split; [repeat constructor; simpl; intuition discriminate|].
  split; [|split; reflexivity].
  intros name [<-|[<-|[]]]; repeat split.
Qed.

(** ** One prefix search *)

Lemma prefix_loop_S (remaining length : nat) (name : string)
    (d : dict (option string)) :
  prefix_loop (S remaining) length name d =
  match dict_get (slice_to length name) d with
  | None => dict_set (slice_to length name) (Some name) d
  | Some (Some previous) =>
      prefix_loop remaining (S length) name
        (dict_set (slice_to (length + 1) previous) (Some previous)
           (dict_set (slice_to length name) None d))
  | Some None => prefix_loop remaining (S length) name d
  end.
Proof. reflexivity. Qed.

Lemma dict_set_keeps_keys {V : Type} (k k' : string) (v : V) (d : dict V) :
  dict_get k d <> None -> dict_get k (dict_set k' v d) <> None.
Proof.
  intros H. rewrite dict_get_set. destruct (String.eqb k' k); [discriminate|exact H].
Qed.

Lemma prefix_loop_keeps_keys (remaining length : nat) (name k : string)
    (d : dict (option string)) :
  dict_get k d <> None -> dict_get k (prefix_loop remaining length name d) <> None.
Proof.
  revert length d. induction remaining as [|n IH]; intros length d H; [exact H|].
  rewrite prefix_loop_S.
  destruct (dict_get (slice_to length name) d) as [[previous|]|].
  - apply IH. now do 2 apply dict_set_keeps_keys.
  - now apply IH.
  - now apply dict_set_keeps_keys.
Qed.

Lemma prefix_loop_registers (name : string) (n length : nat)
    (d : dict (option string)) :
  n + length = String.length name ->
  1 <= length ->
  dict_get name d = None ->
  (forall k v, dict_get k d = Some (Some v) -> startswith name v = false) ->
  exists l, length <= l <= String.length name /\
    dict_get (slice_to l name) (prefix_loop (S n) length name d) = Some (Some name) /\
    forall l', length <= l' < l ->
      dict_get (slice_to l' name) (prefix_loop (S n) length name d) <> None.
Proof.
  revert length d. induction n as [|n IH]; intros length d Hsum Hl Hfree Hlive;
    rewrite prefix_loop_S;
    destruct (dict_get (slice_to length name) d) as [[previous|]|] eqn:E;
    try (exists length; split; [lia|]; split; [apply dict_get_set_eq|intros l' Hl'; lia]);
    try (exfalso; rewrite slice_to_all in E by lia; congruence).
  - set (k0 := slice_to length name) in *.
    set (k1 := slice_to (length + 1) previous).
    set (d' := dict_set k1 (Some previous) (dict_set k0 None d)).
    assert (Hk0 : dict_get k0 d' <> None).
    { unfold d'. apply dict_set_keeps_keys. rewrite dict_get_set_eq. discriminate. }
    destruct (IH (S length) d') as (l & Hlen & Hget & Hkeys); try lia.
    + unfold d'. rewrite !dict_get_set_ne; [exact Hfree| |].
      * intros Heq. apply (f_equal String.length) in Heq.
        unfold k0 in Heq. rewrite slice_to_length_le in Heq; lia.
      * intros Heq. pose proof (startswith_slice_to (length + 1) previous) as Hp.
        fold k1 in Hp. rewrite Heq, (Hlive _ _ E) in Hp. discriminate.
    + intros k v. unfold d'. rewrite !dict_get_set.
      destruct (String.eqb k1 k); [intros [= <-]; now apply (Hlive _ _ E)|].
      destruct (String.eqb k0 k); [discriminate|apply Hlive].
    + exists l. split; [lia|]. split; [exact Hget|].
      intros l' Hl'. destruct (Nat.eq_dec l' length) as [->|Hne].
      * now apply prefix_loop_keeps_keys.
      * apply Hkeys. lia.
  - destruct (IH (S length) d) as (l & Hlen & Hget & Hkeys); auto; try lia.
    exists l. split; [lia|]. split; [exact Hget|].
    intros l' Hl'. destruct (Nat.eq_dec l' length) as [->|Hne].
    + apply prefix_loop_keeps_keys. fold (slice_to length name). congruence.
    + apply Hkeys. lia.
Qed.

(** C2 (amended).  The prefix search, which [generate_name_prompts] runs for
    a name that is not a catch-all, goes through the lengths 1 to the length
    of the name and no further.  Started on a non-empty name that
    is not a key of the dictionary and is a prefix of no name holding an
    entry, it ends by registering the name at a length between 1 and the
    length of the name, every shorter prefix of the name being a key.  At
    each length: a free prefix is registered and ends the search; a prefix
    held by an earlier name has its entry marked [None] and the earlier name
    stored under its own prefix one longer, the search going on with the next
    length of the current name; a prefix marked [None] is passed over. *)
Theorem prefix_search_registers (name : string) (d : dict (option string)) :
  name <> EmptyString ->
  dict_get name d = None ->
  (forall k v, dict_get k d = Some (Some v) -> startswith name v = false) ->
  (exists l, 1 <= l <= String.length name /\
     dict_get (slice_to l name) (prefix_loop (String.length name) 1 name d) =
       Some (Some name) /\
     forall l', 1 <= l' < l ->
       dict_get (slice_to l' name) (prefix_loop (String.length name) 1 name d) <> None) /\
  (forall remaining length d0,
     dict_get (slice_to length name) d0 = None ->
     prefix_loop (S remaining) length name d0 =
     dict_set (slice_to length name) (Some name) d0) /\
  (forall remaining length d0 previous,
     dict_get (slice_to length name) d0 = Some (Some previous) ->
     prefix_loop (S remaining) length name d0 =
     prefix_loop remaining (S length) name
       (dict_set (slice_to (length + 1) previous) (Some previous)
          (dict_set (slice_to length name) None d0))) /\
  (forall remaining length d0,
     dict_get (slice_to length name) d0 = Some None ->
     prefix_loop (S remaining) length name d0 = prefix_loop remaining (S length) name d0) /\
  (forall length d0, prefix_loop 0 length name d0 = d0) /\
  (~ contains "not" name -> ~ contains "all" name ->
   register_name name d = prefix_loop (String.length name) 1 name d).
Proof.
  intros Hne Hfree Hlive. split; [|repeat split; try apply register_name_plain].
  - apply nonempty_length in Hne.
    destruct (String.length name) as [|n] eqn:Hlen; [lia|].
    rewrite <- Hlen.
    destruct (prefix_loop_registers name n 1 d) as (l & Hl & Hget & Hkeys); auto; try lia.
    rewrite Hlen. exists l. rewrite Hlen in Hl. auto.
  - intros remaining length d0 H. now rewrite prefix_loop_S, H.
  - intros remaining length d0 previous H. now rewrite prefix_loop_S, H.
  - intros remaining length d0 H. now rewrite prefix_loop_S, H.
Qed.

Lemma prefix_search_registers_witness :
  exists l, 1 <= l <= String.length "May" /\
    dict_get (slice_to l "May")
      (prefix_loop (String.length "May") 1 "May"
         (potential ["January"; "February"; "March"; "April"])) = Some (Some "May") /\
    forall l', 1 <= l' < l ->
      dict_get (slice_to l' "May")
        (prefix_loop (String.length "May") 1 "May"
           (potential ["January"; "February"; "March"; "April"])) <> None.
Proof.
  apply (prefix_search_registers "May"
           (potential ["January"; "February"; "March"; "April"])).
  - discriminate.
  - reflexivity.
  - intros k v H. apply dict_get_in in H. vm_compute in H.
    destruct H as [H|[H|[H|[H|[]]]]]; injection H as _ <-; reflexivity.
Defined.

(** C2 (counterexample).  After ["ab"], the search for the name ["a"], which
    holds neither ["not"] nor ["all"], runs through its single length and
    ends with no entry for ["a"]: the clash at length 1 moves ["ab"] and
    there is no further length to try. *)
Lemma prefix_search_unregistered :
  find "not" "a" = (-1)%Z /\ find "all" "a" = (-1)%Z /\
  potential ["ab"] = [("a", Some "ab")] /\
  prefix_loop (String.length "a") 1 "a" (potential ["ab"]) =
    [("a", None); ("ab", Some "ab")] /\
  ~ registered "a" (prefix_loop (String.length "a") 1 "a" (potential ["ab"])).
Proof.
  repeat split. intros [key H]. vm_compute in H.
  destruct H as [H|[H|[]]]; discriminate H.
Qed.

(** ** Scenarios of the specification *)

Example filter_prompt_scenario :
  generate_name_prompts ["month"; "day"; "not at all"] =
  Ok (["month [m]"; "day [d]"; "not at all [none]"],
      [("m", "month"); ("d", "day"); ("none", "not at all")]).
Proof. reflexivity. Qed.

Example months_scenario :
  build_options ["January"; "February"; "March"; "April"; "May"; "June"; "all"]
    PROPER_NAME =
  Ok ("January [Ja], February [F], March [Mar], April [A], May [May], June [Ju] or all [all]",
      [("F", "February"); ("A", "April"); ("Mar", "March"); ("May", "May");
       ("Ja", "January"); ("Ju", "June"); ("all", "all")]).
Proof. reflexivity. Qed.

Example third_attempt_scenario :
  show_prompt ascii_lower ["Chicago"; "New York City"; "Washington"] ACRONYMN
    "Would you like to see data for" ["xyz"; "XYZ"; "c"] = (Ok "Chicago", []).
Proof. reflexivity. Qed.

Example three_misses_scenario :
  show_prompt ascii_lower ["Chicago"; "New York City"; "Washington"] ACRONYMN
    "Would you like to see data for" ["xyz"; "paris"; ""; "c"] =
  (Err (Exception "Invalid selection: ''"), ["c"]).
Proof. reflexivity. Qed.

Example prefix_order_scenario :
  generate_name_prompts ["a"; "ab"] = Ok (["a [a]"; "ab [ab]"], [("a", "a"); ("ab", "ab")]).
Proof. reflexivity. Qed.

(** ** File names: the extension and the round trip through the city name *)

Lemma length_append (a b : string) :
  String.length (a ++ b) = String.length a + String.length b.
Proof. induction a as [|c a IH]; simpl; auto. Qed.

Lemma slice_to_append (a b : string) : slice_to (String.length a) (a ++ b) = a.
Proof. induction a as [|c a IH]; simpl; [now destruct b|now rewrite IH]. Qed.

Lemma slice_from_append (a b : string) : slice_from (String.length a) (a ++ b) = b.
Proof. induction a as [|c a IH]; simpl; [now destruct b|exact IH]. Qed.

Lemma slice_to_slice_from (n : nat) (s : string) :
  (slice_to n s ++ slice_from n s)%string = s.
Proof.
  revert s. induction n as [|n IH]; intros [|c s]; simpl; auto. now rewrite IH.
Qed.

Lemma drop_last_append (base ext : string) :
  drop_last (String.length ext) (base ++ ext) = base.
Proof.
  unfold drop_last. rewrite length_append.
  replace (String.length base + String.length ext - String.length ext)
    with (String.length base) by lia.
  apply slice_to_append.
Qed.

Lemma last_chars_append (base ext : string) :
  last_chars (String.length ext) (base ++ ext) = ext.
Proof.
  unfold last_chars. rewrite length_append.
  replace (String.length base + String.length ext - String.length ext)
    with (String.length base) by lia.
  apply slice_from_append.
Qed.

Lemma drop_last_csv (base : string) : drop_last 4 (base ++ ".csv") = base.
Proof. exact (drop_last_append base ".csv"). Qed.

(** The test [file[-4:] == '.csv'] holds exactly for the names that end with
    the extension, which [csv_name[:-4]] then removes. *)
Lemma last_chars_csv (file : string) :
  last_chars 4 file = ".csv" <-> exists base : string, file = (base ++ ".csv")%string.
Proof.
  split.
  - intros H. exists (drop_last 4 file). unfold drop_last, last_chars in *.
    rewrite <- H. symmetry. apply slice_to_slice_from.
  - intros [base ->]. exact (last_chars_append base ".csv").
Qed.

Lemma lower_replace_char (c : ascii) (b : bool) :
  is_upper c = false -> c <> " "%char ->
  lower_char
    (let c1 := if Ascii.eqb c "_" then " "%char else c in
     let c2 := if b then lower_char c1 else upper_char c1 in
     if Ascii.eqb c2 " " then "_"%char else c2) = c.
Proof.
  destruct c as [[] [] [] [] [] [] [] []]; destruct b; intros H1 H2;
    first [reflexivity | discriminate H1 | exfalso; apply H2; reflexivity].
Qed.

Lemma lower_replace_char_range (x : ascii) :
  is_upper (lower_char (if Ascii.eqb x " " then "_"%char else x)) = false /\
  lower_char (if Ascii.eqb x " " then "_"%char else x) <> " "%char.
Proof.
  destruct x as [[] [] [] [] [] [] [] []]; split; first [reflexivity | discriminate].
Qed.

Lemma lower_replace_title (b : bool) (base : string) :
  Forall (fun c => is_upper c = false /\ c <> " "%char) (list_ascii_of_string base) ->
  ascii_lower (replace " " "_" (title_from b (replace "_" " " base))) = base.
Proof.
  revert b. induction base as [|c base IH]; intros b H; [reflexivity|].
  simpl in H. inversion H as [|? ? [Hup Hsp] Hrest]; subst.
  simpl. f_equal.
  - exact (lower_replace_char c b Hup Hsp).
  - now apply IH.
Qed.

Lemma lower_replace_range (s : string) :
  Forall (fun c => is_upper c = false /\ c <> " "%char)
         (list_ascii_of_string (ascii_lower (replace " " "_" s))).
Proof.
  induction s as [|x s IH]; simpl; constructor; auto.
  apply lower_replace_char_range.
Qed.

(** X1.  For an ASCII file name [base ++ ".csv"], deriving the city name and
    then the file name of that city gives the file name back exactly when
    [base] has no upper-case letter and no space. *)
Theorem csv_name_round_trip (base : string) :
  is_ascii base ->
  (get_csv_name ascii_lower (get_city_name ascii_title (base ++ ".csv")) =
     (base ++ ".csv")%string
   <->
   Forall (fun c => is_upper c = false /\ c <> " "%char) (list_ascii_of_string base)).
Proof.
  intros _. unfold get_csv_name, get_city_name, ascii_title.
  rewrite drop_last_csv. split.
  - intros H.
    apply (f_equal (drop_last 4)) in H.
    rewrite !drop_last_csv in H.
    rewrite <- H. apply lower_replace_range.
  - intros H. now rewrite lower_replace_title.
Qed.

Lemma csv_name_round_trip_witness :
  get_csv_name ascii_lower (get_city_name ascii_title ("new_york_city" ++ ".csv")) =
    ("new_york_city" ++ ".csv")%string
  <->
  Forall (fun c => is_upper c = false /\ c <> " "%char)
         (list_ascii_of_string "new_york_city").
Proof.
  apply (csv_name_round_trip "new_york_city").
  repeat constructor.
Defined.

(** ** How the generators and [build_options] fail and succeed *)

Lemma comprehension_err_inv {A B : Type} (f : A -> result B) (xs : list A) (e : exn) :
  comprehension f xs = Err e -> exists x, In x xs /\ f x = Err e.
Proof.
  induction xs as [|x xs IH]; simpl; [discriminate|].
  destruct (f x) as [y|e'] eqn:E; simpl.
  - destruct (comprehension f xs) as [ys|e'']; simpl; [discriminate|].
    intros [= ->]. destruct (IH eq_refl) as (x' & Hin & Hx'). eauto.
  - intros [= ->]. eauto.
Qed.

Lemma generate_city_prompts_cases (cities : list string) :
  (exists m, generate_city_prompts cities =
               Ok (map (fun city => format_prompt city (initials city)) cities, m)) \/
  generate_city_prompts cities = Err IndexError.
Proof.
  destruct (Forall_dec tokens_nonempty tokens_nonempty_dec cities) as [Htok|Htok].
  - left. destruct (generate_city_prompts_ok cities Htok) as (m & Hrun & _). eauto.
  - right. apply city_loop_err, Htok.
Qed.

Lemma generate_name_prompts_cases (names : list string) :
  (exists prompts m, generate_name_prompts names = Ok (prompts, m) /\
                     List.length prompts = List.length names) \/
  (exists name, In name names /\ generate_name_prompts names = Err (KeyError name)).
Proof.
  destruct (generate_name_prompts names) as [[prompts m]|e] eqn:E.
  - left. exists prompts, m. split; [reflexivity|].
    destruct (generate_name_prompts_ok_inv names prompts m E) as [HF _].
    symmetry. eapply Forall2_length, HF.
  - right. rewrite generate_name_prompts_unfold in E.
    destruct (comprehension _ names) as [ps|e'] eqn:Ec; simpl in E; [discriminate|].
    injection E as ->.
    apply comprehension_err_inv in Ec as (name & Hin & Hname).
    exists name. split; [exact Hin|]. f_equal. unfold subscript in Hname.
    destruct (dict_get name _); simpl in Hname; [discriminate|]. now injection Hname.
Qed.

Lemma show_prompt_short_list (lower : string -> string) (names : list string)
    (abbreviation_type : Z) (beginning : string) (stdin : list string) :
  List.length names < 2 ->
  exists e,
    show_prompt lower names abbreviation_type beginning stdin = (Err e, stdin) /\
    (names = [] -> e = IndexError) /\
    (e = IndexError \/ (exists name, In name names /\ e = KeyError name) \/
     (List.length names = 1 /\ e = UnboundLocalError "options")).
Proof.
  intros Hlen. unfold show_prompt, build_options.
  destruct names as [|name [|name' names]]; [| |simpl in Hlen; lia].
  - destruct (abbreviation_type =? ACRONYMN)%Z; simpl;
      exists IndexError; auto.
  - destruct (abbreviation_type =? ACRONYMN)%Z.
    + destruct (generate_city_prompts_cases [name]) as [[m ->]| ->]; simpl.
      * exists (UnboundLocalError "options"). repeat split; auto. discriminate.
      * exists IndexError. auto.
    + destruct (generate_name_prompts_cases [name])
        as [(prompts & m & -> & Hl)|(x & Hx & ->)]; simpl.
      * destruct prompts as [|p [|p' prompts]]; try discriminate Hl. simpl.
        exists (UnboundLocalError "options"). repeat split; auto. discriminate.
      * exists (KeyError x). repeat split; eauto. discriminate.
Qed.

(** X2.  With no name or a single name, [show_prompt] never asks anything: it
    raises before reading a line.  With no name the exception is
    [IndexError]; with one name it is [IndexError] or [KeyError] from the
    generator, or else [UnboundLocalError] for [options]. *)
Theorem show_prompt_needs_two_names (lower : string -> string) (names : list string)
    (abbreviation_type : Z) (beginning : string) (stdin : list string) :
  List.length names < 2 ->
  exists e,
    show_prompt lower names abbreviation_type beginning stdin = (Err e, stdin) /\
    (names = [] -> e = IndexError) /\
    (e = IndexError \/ (exists name, In name names /\ e = KeyError name) \/
     (List.length names = 1 /\ e = UnboundLocalError "options")).
Proof. apply show_prompt_short_list. Qed.

Lemma show_prompt_needs_two_names_witness :
  exists e,
    show_prompt ascii_lower ["Chicago"] ACRONYMN "Would you like to see data for"
      ["c"; "chicago"] = (Err e, ["c"; "chicago"]) /\
    (["Chicago"] = [] -> e = IndexError) /\
    (e = IndexError \/ (exists name, In name ["Chicago"] /\ e = KeyError name) \/
     (List.length ["Chicago"] = 1 /\ e = UnboundLocalError "options")).
Proof.
  apply (show_prompt_needs_two_names ascii_lower ["Chicago"] ACRONYMN
           "Would you like to see data for" ["c"; "chicago"]).
  simpl. lia.
Defined.

(** X3.  For two or more city names whose tokens are all non-empty,
    [build_options] returns: the text lists the prompts of all names but the
    last separated by a comma and a space, then [" or "] and the prompt of
    the last name; the map holds under each acronym the last name that has
    it. *)
Theorem build_options_cities (firsts : list string) (last : string) :
  firsts <> [] ->
  Forall tokens_nonempty (firsts ++ [last]) ->
  exists m,
    build_options (firsts ++ [last]) ACRONYMN =
      Ok ((String.concat ", "
             (map (fun city => format_prompt city (initials city)) firsts)
           ++ " or " ++ format_prompt last (initials last))%string, m) /\
    forall k, dict_get k m = last_with_initials k (firsts ++ [last]).
Proof.
  intros Hne Htok.
  destruct (generate_city_prompts_ok _ Htok) as (m & Hrun & _ & Hget).
  exists m. split; [|exact Hget].
  unfold build_options. simpl (_ =? _)%Z. rewrite Hrun. simpl bind.
  rewrite map_app. simpl map.
  pose proof (enumerate_two_or_more
                (map (fun city => format_prompt city (initials city)) firsts)
                (format_prompt last (initials last))) as He.
  destruct (enumerate _) as [env|e]; simpl in *.
  - destruct (read_local "options" (options env)) as [o|e]; simpl in *.
    + assert (Hmap : map (fun city => format_prompt city (initials city)) firsts <> [])
        by (destruct firsts; [contradiction|discriminate]).
      specialize (He Hmap). now injection He as ->.
    + assert (Hmap : map (fun city => format_prompt city (initials city)) firsts <> [])
        by (destruct firsts; [contradiction|discriminate]).
      specialize (He Hmap). discriminate.
  - assert (Hmap : map (fun city => format_prompt city (initials city)) firsts <> [])
      by (destruct firsts; [contradiction|discriminate]).
    specialize (He Hmap). discriminate.
Qed.

Lemma build_options_cities_witness :
  exists m,
    build_options (["Chicago"; "New York City"] ++ ["Washington"]) ACRONYMN =
      Ok ((String.concat ", "
             (map (fun city => format_prompt city (initials city))
                  ["Chicago"; "New York City"])
           ++ " or " ++ format_prompt "Washington" (initials "Washington"))%string, m) /\
    forall k, dict_get k m =
              last_with_initials k (["Chicago"; "New York City"] ++ ["Washington"]).
Proof.
  apply (build_options_cities ["Chicago"; "New York City"] "Washington").
  - discriminate.
  - repeat constructor; discriminate.
Defined.

Lemma dict_set_fresh {V : Type} (k : string) (v : V) (d : dict V) :
  dict_get k d = None -> dict_set k v d = d ++ [(k, v)].
Proof.
  induction d as [|[k' v'] d IH]; simpl; [reflexivity|].
  destruct (String.eqb k k'); [discriminate|]. intros H. now rewrite IH.
Qed.

Lemma fold_insert_city_distinct (cities : list string) (d : dict string) :
  NoDup (keys d ++ map initials cities) ->
  fold_left insert_city cities d = d ++ map (fun city => (initials city, city)) cities.
Proof.
  revert d. induction cities as [|c cities IH]; intros d H; simpl.
  - now rewrite app_nil_r.
  - assert (Hfresh : dict_get (initials c) d = None).
    { apply dict_get_none. intros Hin.
      apply NoDup_remove_2 in H. apply H. apply in_or_app. now left. }
    unfold insert_city at 2. rewrite (dict_set_fresh _ _ _ Hfresh).
    rewrite IH.
    + rewrite <- app_assoc. reflexivity.
    + unfold keys in *. rewrite map_app. simpl. rewrite <- app_assoc. exact H.
Qed.

(** X4.  When the names have non-empty tokens and pairwise distinct initials,
    [generate_city_prompts] returns a map with exactly one entry per name, in
    input order, keyed by the initials of the name: no name is lost. *)
Theorem generate_city_prompts_distinct_initials (cities : list string) :
  Forall tokens_nonempty cities ->
  NoDup (map initials cities) ->
  generate_city_prompts cities =
    Ok (map (fun city => format_prompt city (initials city)) cities,
        map (fun city => (initials city, city)) cities).
Proof.
  intros Htok Hnd. unfold generate_city_prompts.
  rewrite (city_loop_ok cities [] [] Htok). simpl.
  now rewrite (fold_insert_city_distinct cities []).
Qed.

Lemma generate_city_prompts_distinct_initials_witness :
  generate_city_prompts ["Chicago"; "New York City"; "Washington"] =
    Ok (map (fun city => format_prompt city (initials city))
            ["Chicago"; "New York City"; "Washington"],
        map (fun city => (initials city, city))
            ["Chicago"; "New York City"; "Washington"]).
Proof.
  apply (generate_city_prompts_distinct_initials
           ["Chicago"; "New York City"; "Washington"]).
  - repeat constructor; discriminate.
  - repeat constructor; simpl; intuition discriminate.
Defined.

(** ** Paging through the raw data *)

Lemma firstn_slice {A : Type} (start stop : nat) (l : list A) :
  start <= stop -> firstn start l ++ slice start stop l = firstn stop l.
Proof.
  unfold slice. revert stop l. induction start as [|start IH]; intros stop l H; simpl.
  - now rewrite Nat.sub_0_r.
  - destruct stop as [|stop]; [lia|]. destruct l as [|x l]; simpl.
    + now rewrite firstn_nil.
    + f_equal. apply IH. lia.
Qed.

Lemma slice_length {A : Type} (start stop : nat) (l : list A) :
  List.length (slice start stop l) <= stop - start.
Proof. unfold slice. apply firstn_le_length. Qed.

Lemma concat_snoc {A : Type} (ls : list (list A)) (l : list A) :
  concat (ls ++ [l]) = concat ls ++ l.
Proof. rewrite concat_app. simpl. now rewrite app_nil_r. Qed.

Lemma In_slice {A : Type} (start stop : nat) (l : list A) (x : A) :
  In x (slice start stop l) -> In x l.
Proof.
  unfold slice. intros H. rewrite <- (firstn_skipn start l). apply in_or_app. right.
  rewrite <- (firstn_skipn (stop - start) (skipn start l)). apply in_or_app. now left.
Qed.

Lemma slice_map {A B : Type} (f : A -> B) (start stop : nat) (l : list A) :
  slice start stop (map f l) = map f (slice start stop l).
Proof. unfold slice. now rewrite skipn_map, firstn_map. Qed.

Section RawStatsFacts.
Variable lower : string -> string.
Context {label values : Type}.
Variable label_eq_dec : forall a b : label, {a = b} + {a <> b}.
Variable df : @frame label values.

Lemma filter_label_absent (wanted : label) (rows : @frame label values) :
  ~ In wanted (df_index rows) ->
  filter (fun entry => if label_eq_dec (fst entry) wanted then true else false) rows = [].
Proof.
  induction rows as [|x rows IH]; intros H; [reflexivity|]. simpl in *.
  destruct (label_eq_dec (fst x) wanted) as [Heq|Hne]; [exfalso; auto|]. apply IH. auto.
Qed.

Lemma filter_label_unique (entry : label * values) (rows : @frame label values) :
  NoDup (df_index rows) -> In entry rows ->
  filter (fun x => if label_eq_dec (fst x) (fst entry) then true else false) rows =
  [entry].
Proof.
  induction rows as [|x rows IH]; intros Hnd Hin; [contradiction|].
  simpl in Hnd. inversion Hnd as [|? ? Hfresh Hnd']; subst. simpl.
  destruct Hin as [->|Hin].
  - destruct (label_eq_dec (fst entry) (fst entry)) as [_|Hne]; [|contradiction].
    f_equal. now apply filter_label_absent.
  - destruct (label_eq_dec (fst x) (fst entry)) as [Heq|_]; [|now apply IH].
    exfalso. apply Hfresh. rewrite Heq. unfold df_index. now apply in_map.
Qed.

(** On a frame whose labels are distinct, [df.loc] of the labels of some of
    its rows gives these rows back. *)
Lemma loc_rows (rows : @frame label values) :
  NoDup (df_index df) -> incl rows df -> loc label_eq_dec (df_index rows) df = rows.
Proof.
  intros Hnd. induction rows as [|x rows IH]; intros Hincl; [reflexivity|].
  simpl. rewrite (filter_label_unique x df Hnd) by (apply Hincl; now left).
  simpl. f_equal. apply IH. intros y Hy. apply Hincl. now right.
Qed.

Lemma loc_slice (start stop : nat) :
  NoDup (df_index df) ->
  loc label_eq_dec (slice start stop (df_index df)) df = slice start stop df.
Proof.
  intros Hnd. unfold df_index at 1. rewrite slice_map. apply (loc_rows _ Hnd).
  intros x. apply In_slice.
Qed.

(** Whatever the frame, the loop ends, having read one line per chunk. *)
Lemma raw_stats_loop_ends (fuel i row : nat) (stdin : list string)
    (printed : list (@frame label values)) :
  row = 5 * i -> i <= 5 -> 5 - i < fuel ->
  exists r stdin' printed',
    raw_stats_loop lower label_eq_dec fuel df row stdin printed =
      Some (r, stdin', printed') /\
    (exists m, m <= 5 - i /\ stdin' = skipn m stdin) /\
    List.length printed' <= List.length printed + (5 - i).
Proof.
  revert i row stdin printed.
  induction fuel as [|fuel IH]; intros i row stdin printed Hrow Hi Hfuel; [lia|].
  cbn [raw_stats_loop]. unfold max_rows, row_count.
  destruct (Nat.ltb_spec row 25) as [H25|H25];
    destruct (Nat.ltb_spec row (List.length (df_index df))) as [Hn|Hn]; cbn [andb];
    try (exists (Ok tt), stdin, printed; split; [reflexivity|];
         split; [exists 0; split; [lia|reflexivity]|lia]).
  set (chunk := loc label_eq_dec _ df).
  destruct stdin as [|answer stdin].
  - exists (Err EOFError), [], (printed ++ [chunk]).
    split; [reflexivity|]. split; [exists 0; split; [lia|reflexivity]|].
    rewrite length_app. cbn [List.length]. lia.
  - destruct (String.eqb (lower answer) "yes"); cbn [negb].
    + destruct (IH (S i) (row + 5) stdin (printed ++ [chunk]))
        as (r & stdin' & printed' & Hrun & (m & Hm & Hskip) & Hl); try lia.
      exists r, stdin', printed'. split; [exact Hrun|].
      split; [exists (S m); split; [lia|exact Hskip]|].
      rewrite length_app in Hl. cbn [List.length] in Hl. lia.
    + exists (Ok tt), stdin, (printed ++ [chunk]).
      split; [reflexivity|]. split; [exists 1; split; [lia|reflexivity]|].
      rewrite length_app. cbn [List.length]. lia.
Qed.

Hypothesis unique : NoDup (df_index df).

Lemma raw_stats_loop_pages (fuel i row : nat) (stdin : list string)
    (printed : list (@frame label values)) :
  row = 5 * i -> i <= 5 -> 5 - i < fuel ->
  concat printed = firstn (Nat.min row (List.length df - 1)) df ->
  Forall (fun chunk => List.length chunk <= 5) printed ->
  exists r stdin' printed',
    raw_stats_loop lower label_eq_dec fuel df row stdin printed =
      Some (r, stdin', printed') /\
    (exists k, concat printed' = firstn k df /\ k <= 25 /\ k <= List.length df - 1) /\
    Forall (fun chunk => List.length chunk <= 5) printed'.
Proof.
  revert i row stdin printed.
  induction fuel as [|fuel IH]; intros i row stdin printed Hrow Hi Hfuel Hcat Hlen; [lia|].
  cbn [raw_stats_loop]. unfold max_rows, row_count.
  rewrite (loc_slice _ _ unique).
  replace (List.length (df_index df)) with (List.length df)
    by (unfold df_index; now rewrite length_map).
  destruct (Nat.ltb_spec row 25) as [H25|H25];
    destruct (Nat.ltb_spec row (List.length df)) as [Hn|Hn]; cbn [andb];
    try (exists (Ok tt), stdin, printed; split; [reflexivity|];
         split; [exists (Nat.min row (List.length df - 1)); split; [exact Hcat|lia]|];
         exact Hlen).
  set (stop := Nat.min (row + 5 + 1) (List.length df) - 1).
  assert (Hstop : stop = Nat.min (row + 5) (List.length df - 1)) by (unfold stop; lia).
  assert (Hcat' : concat (printed ++ [slice row stop df]) =
                  firstn (Nat.min (row + 5) (List.length df - 1)) df).
  { unfold frame in *. rewrite concat_snoc, Hcat.
    replace (Nat.min row (List.length df - 1)) with row by lia.
    rewrite firstn_slice by lia. now rewrite Hstop. }
  assert (Hlen' : Forall (fun chunk => List.length chunk <= 5)
                         (printed ++ [slice row stop df])).
  { apply Forall_app. split; [exact Hlen|]. constructor; [|constructor].
    pose proof (slice_length row stop df). lia. }
  destruct stdin as [|answer stdin].
  - exists (Err EOFError), [], (printed ++ [slice row stop df]).
    split; [reflexivity|]. split; [eexists; split; [exact Hcat'|lia]|exact Hlen'].
  - destruct (String.eqb (lower answer) "yes"); cbn [negb].
    + apply (IH (S i) (row + 5) stdin (printed ++ [slice row stop df])); auto; lia.
    + exists (Ok tt), stdin, (printed ++ [slice row stop df]).
      split; [reflexivity|]. split; [eexists; split; [exact Hcat'|lia]|exact Hlen'].
Qed.

Lemma raw_stats_loop_all_yes (fuel i row : nat) (stdin : list string)
    (printed : list (@frame label values)) :
  row = 5 * i -> i <= 5 -> 5 - i < fuel -> 5 - i <= List.length stdin ->
  Forall (fun answer => lower answer = "yes") stdin ->
  concat printed = firstn (Nat.min row (List.length df - 1)) df ->
  exists stdin' printed',
    raw_stats_loop lower label_eq_dec fuel df row stdin printed =
      Some (Ok tt, stdin', printed') /\
    concat printed' = firstn (Nat.min 25 (List.length df - 1)) df.
Proof.
  revert i row stdin printed.
  induction fuel as [|fuel IH]; intros i row stdin printed Hrow Hi Hfuel Hin Hyes Hcat;
    [lia|].
  cbn [raw_stats_loop]. unfold max_rows, row_count.
  rewrite (loc_slice _ _ unique).
  replace (List.length (df_index df)) with (List.length df)
    by (unfold df_index; now rewrite length_map).
  destruct (Nat.ltb_spec row 25) as [H25|H25];
    destruct (Nat.ltb_spec row (List.length df)) as [Hn|Hn]; cbn [andb];
    try (exists stdin, printed; split; [reflexivity|]; rewrite Hcat; f_equal; lia).
  set (stop := Nat.min (row + 5 + 1) (List.length df) - 1).
  assert (Hstop : stop = Nat.min (row + 5) (List.length df - 1)) by (unfold stop; lia).
  cbn [List.length] in Hin.
  destruct stdin as [|answer stdin]; [cbn [List.length] in Hin; lia|].
  cbn [List.length] in Hin.
  pose proof (Forall_inv Hyes) as Hanswer. pose proof (Forall_inv_tail Hyes) as Hrest.
  cbn beta in Hanswer. rewrite Hanswer.
  change (String.eqb "yes" "yes") with true. cbn [negb].
  apply (IH (S i)); auto; try lia.
  - unfold frame in *. rewrite concat_snoc, Hcat.
    replace (Nat.min row (List.length df - 1)) with row by lia.
    rewrite firstn_slice by lia. now rewrite Hstop.
Qed.
End RawStatsFacts.

(** X5.  Whatever the frame and whatever is typed, [prompt_for_raw_stats]
    ends within its iterations, reads at most six lines and prints at most
    five chunks.  When the labels of the frame's index are distinct, the
    chunks, one after the other, are an initial segment of the frame of at
    most 25 rows, each chunk has at most 5 rows, and the last row of the frame
    is never among them. *)
Theorem prompt_for_raw_stats_pages (lower : string -> string) (label values : Type)
    (label_eq_dec : forall a b : label, {a = b} + {a <> b})
    (df : @frame label values) (stdin : list string) :
  exists r stdin' printed,
    prompt_for_raw_stats lower label_eq_dec df stdin = Some (r, stdin', printed) /\
    (exists m, m <= 6 /\ stdin' = skipn m stdin) /\
    List.length printed <= 5 /\
    (NoDup (df_index df) ->
       (exists k, concat printed = firstn k df /\ k <= 25 /\ k <= List.length df - 1) /\
       Forall (fun chunk => List.length chunk <= 5) printed /\
       (forall front last, df = front ++ [last] -> ~ In last (concat printed))).
Proof.
  unfold prompt_for_raw_stats. destruct stdin as [|answer stdin].
  - exists (Err EOFError), [], []. split; [reflexivity|].
    split; [exists 0; split; [lia|reflexivity]|]. split; [simpl; lia|].
    intros _. split; [exists 0; repeat split; simpl; lia|].
    split; [constructor|]. intros front last _ [].
  - destruct (String.eqb (lower answer) "yes").
    + destruct (raw_stats_loop_ends lower label_eq_dec df (S max_rows) 0 0 stdin [])
        as (r & stdin' & printed & Hrun & (m & Hm & Hskip) & Hchunks);
        try (unfold max_rows; lia).
      exists r, stdin', printed. split; [exact Hrun|].
      split; [exists (S m); split; [lia|exact Hskip]|].
      split; [simpl in Hchunks; lia|].
      intros Hnd.
      destruct (raw_stats_loop_pages lower label_eq_dec df Hnd (S max_rows) 0 0 stdin [])
        as (r' & stdin'' & printed' & Hrun' & (k & Hcat & Hk25 & Hk) & Hl);
        try (unfold max_rows; lia); [reflexivity|constructor|].
      rewrite Hrun in Hrun'. injection Hrun' as <- <- <-.
      split; [exists k; auto|]. split; [exact Hl|].
      intros front last -> Hin.
      assert (Hfresh : ~ In last front).
      { unfold df_index in Hnd. rewrite map_app in Hnd. simpl in Hnd.
        apply NoDup_remove_2 in Hnd. rewrite app_nil_r in Hnd.
        intros H. apply Hnd. now apply in_map. }
      apply Hfresh. rewrite Hcat in Hin. rewrite length_app in Hk. simpl in Hk.
      rewrite firstn_app in Hin.
      replace (k - List.length front) with 0 in Hin by lia.
      simpl in Hin. rewrite app_nil_r in Hin.
      rewrite <- (firstn_skipn k front). apply in_or_app. now left.
    + exists (Ok tt), stdin, []. split; [reflexivity|].
      split; [exists 1; split; [lia|reflexivity]|]. split; [simpl; lia|].
      intros _. split; [exists 0; repeat split; simpl; lia|].
      split; [constructor|]. intros front last _ [].
Qed.

Lemma prompt_for_raw_stats_pages_witness :
  exists r stdin' printed,
    prompt_for_raw_stats ascii_lower Nat.eq_dec
      [(10, "a"); (11, "b"); (12, "c"); (13, "d"); (14, "e"); (15, "f"); (16, "g")]
      ["yes"; "Yes"; "no"; "left"] = Some (r, stdin', printed) /\
    stdin' = ["left"] /\
    concat printed = [(10, "a"); (11, "b"); (12, "c"); (13, "d"); (14, "e"); (15, "f")].
Proof.
  destruct (prompt_for_raw_stats_pages ascii_lower nat string Nat.eq_dec
              [(10, "a"); (11, "b"); (12, "c"); (13, "d"); (14, "e"); (15, "f"); (16, "g")]
              ["yes"; "Yes"; "no"; "left"])
    as (r & stdin' & printed & Hrun & _ & _ & Hpages).
  destruct Hpages as (_ & _ & _).
  { repeat constructor; simpl; intuition discriminate. }
  exists r, stdin', printed. split; [exact Hrun|].
  vm_compute in Hrun. injection Hrun as <- <- <-. split; reflexivity.
Defined.

(** X6.  On a frame whose index labels are distinct, when every answer is
    [yes], in any case, and six answers are there, [prompt_for_raw_stats]
    returns having shown exactly the first [min(25, n - 1)] rows of the [n]
    rows: even then the last row is not shown. *)
Theorem prompt_for_raw_stats_all_yes (lower : string -> string) (label values : Type)
    (label_eq_dec : forall a b : label, {a = b} + {a <> b})
    (df : @frame label values) (answers : list string) :
  NoDup (df_index df) ->
  6 <= List.length answers ->
  Forall (fun answer => lower answer = "yes") answers ->
  exists stdin' printed,
    prompt_for_raw_stats lower label_eq_dec df answers = Some (Ok tt, stdin', printed) /\
    concat printed = firstn (Nat.min 25 (List.length df - 1)) df.
Proof.
  intros Hnd Hlen Hyes. unfold prompt_for_raw_stats.
  destruct answers as [|answer answers]; [simpl in Hlen; lia|].
  inversion Hyes as [|? ? Hanswer Hrest]; subst. rewrite Hanswer. simpl.
  apply (raw_stats_loop_all_yes lower label_eq_dec df Hnd (S max_rows) 0 0 answers []);
    auto; try (unfold max_rows; lia).
  simpl in Hlen. lia.
Qed.

Lemma prompt_for_raw_stats_all_yes_witness :
  exists stdin' printed,
    prompt_for_raw_stats ascii_lower Nat.eq_dec
      [(10, "a"); (11, "b"); (12, "c"); (13, "d"); (14, "e"); (15, "f"); (16, "g")]
      ["yes"; "YES"; "Yes"; "yes"; "yes"; "yes"] = Some (Ok tt, stdin', printed) /\
    concat printed =
      firstn (Nat.min 25
                (List.length
                   [(10, "a"); (11, "b"); (12, "c"); (13, "d"); (14, "e"); (15, "f");
                    (16, "g")] - 1))
             [(10, "a"); (11, "b"); (12, "c"); (13, "d"); (14, "e"); (15, "f"); (16, "g")].
Proof.
  apply (prompt_for_raw_stats_all_yes ascii_lower nat string Nat.eq_dec
           [(10, "a"); (11, "b"); (12, "c"); (13, "d"); (14, "e"); (15, "f"); (16, "g")]
           ["yes"; "YES"; "Yes"; "yes"; "yes"; "yes"]).
  - repeat constructor; simpl; intuition discriminate.
  - simpl. lia.
  - repeat constructor.
Defined.

(** With repeated labels [df.loc] returns every row that carries a label, for
    each time the label is asked for: a frame of seven rows, six of them
    labelled [0], is shown as chunks of 30 and 6 rows. *)
Example repeated_labels_scenario :
  option_map (fun run => map (@List.length (nat * string)) (snd run))
    (prompt_for_raw_stats ascii_lower Nat.eq_dec
       [(0, "a"); (0, "b"); (0, "c"); (0, "d"); (0, "e"); (0, "f"); (1, "g")]
       ["yes"; "yes"; "yes"]) =
  Some [30; 6].
Proof. reflexivity. Qed.

(** ** The questions of [get_filters] *)

Section FiltersFacts.
Variable lower title : string -> string.
Variable isfile : string -> bool.
Variable listdir : string -> list string.

Lemma attempts_reads (remaining : nat) (prompt_map : dict string)
    (raw : option string) (stdin : list string) :
  exists n, n <= remaining /\
    snd (attempts lower remaining prompt_map raw stdin) = skipn n stdin.
Proof.
  revert raw stdin. induction remaining as [|k IH]; intros raw stdin; simpl.
  - exists 0. split; [lia|]. now destruct raw.
  - destruct stdin as [|line stdin]; [exists 0; split; [lia|reflexivity]|].
    destruct (scan lower line prompt_map).
    + exists 1. split; [lia|reflexivity].
    + destruct (IH (Some line) stdin) as (n & Hn & Hskip).
      exists (S n). split; [lia|exact Hskip].
Qed.

Lemma show_prompt_reads (names : list string) (abbreviation_type : Z)
    (beginning : string) (stdin : list string) :
  exists n, n <= 3 /\
    snd (show_prompt lower names abbreviation_type beginning stdin) = skipn n stdin.
Proof.
  unfold show_prompt.
  destruct (build_options names abbreviation_type) as [[word_part prompt_map]|e].
  - apply attempts_reads.
  - exists 0. split; [lia|reflexivity].
Qed.

Lemma show_prompt_selected (names : list string) (abbreviation_type : Z)
    (beginning : string) (stdin rest : list string) (selected : string) :
  show_prompt lower names abbreviation_type beginning stdin = (Ok selected, rest) ->
  In selected names.
Proof.
  unfold show_prompt.
  destruct (build_options names abbreviation_type) as [[word_part prompt_map]|e] eqn:E;
    [|discriminate].
  intros H. eapply build_options_values; [exact E|]. eapply attempts_value, H.
Qed.

Lemma period_months (beginning : string) (stdin : list string) :
  (exists n, n <= 3 /\ snd (period lower MONTHS 1 beginning stdin) = skipn n stdin) /\
  (forall month, fst (period lower MONTHS 1 beginning stdin) = Return month ->
     month = ALL \/ (1 <= month <= 6)%Z) /\
  (forall item, fst (period lower MONTHS 1 beginning stdin) <>
                Raised (RaiseValueError item)).
Proof.
  unfold period.
  pose proof (show_prompt_reads MONTHS PROPER_NAME beginning stdin) as Hreads.
  destruct (show_prompt lower MONTHS PROPER_NAME beginning stdin) as [[name|e] rest] eqn:E.
  - apply show_prompt_selected in E.
    assert (Hsnd : forall A (o : outcome A), snd (o, rest) = rest) by reflexivity.
    destruct E as [<-|[<-|[<-|[<-|[<-|[<-|[<-|[]]]]]]]]; simpl in *;
      (split; [exact Hreads|split; [intros month [= <-]; unfold ALL; lia|discriminate]]).
  - simpl in *. split; [exact Hreads|]. split; discriminate.
Qed.

Lemma period_weekdays (beginning : string) (stdin : list string) :
  (exists n, n <= 3 /\ snd (period lower WEEKDAYS 0 beginning stdin) = skipn n stdin) /\
  (forall day, fst (period lower WEEKDAYS 0 beginning stdin) = Return day ->
     day = ALL \/ (0 <= day <= 6)%Z) /\
  (forall item, fst (period lower WEEKDAYS 0 beginning stdin) <>
                Raised (RaiseValueError item)).
Proof.
  unfold period.
  pose proof (show_prompt_reads WEEKDAYS PROPER_NAME beginning stdin) as Hreads.
  destruct (show_prompt lower WEEKDAYS PROPER_NAME beginning stdin)
    as [[name|e] rest] eqn:E.
  - apply show_prompt_selected in E.
    destruct E as [<-|[<-|[<-|[<-|[<-|[<-|[<-|[<-|[]]]]]]]]]; simpl in *;
      (split; [exact Hreads|split; [intros day [= <-]; unfold ALL; lia|discriminate]]).
  - simpl in *. split; [exact Hreads|]. split; discriminate.
Qed.
End FiltersFacts.

Lemma skipn_skipn_le (a b n m : nat) (l l1 l2 : list string) :
  n <= a -> m <= b -> l1 = skipn n l -> l2 = skipn m l1 ->
  exists k, k <= a + b /\ l2 = skipn k l.
Proof.
  intros Hn Hm -> ->. exists (m + n). split; [lia|]. apply skipn_skipn.
Qed.

(** The ways [get_filters] can end. *)
Lemma get_filters_cases (lower title : string -> string) (isfile : string -> bool)
    (listdir : string -> list string) (dataset project_path : string)
    (stdin : list string) :
  (forall item,
     fst (get_filters lower title isfile listdir dataset project_path stdin) <>
     Raised (RaiseValueError item)) /\
  (exists n, n <= 9 /\
     snd (get_filters lower title isfile listdir dataset project_path stdin) =
     skipn n stdin) /\
  (forall csv month day,
     fst (get_filters lower title isfile listdir dataset project_path stdin) =
       Return (csv, month, day) ->
     (exists file, In file (listdir project_path) /\ is_csv_file isfile file = true /\
                   csv = get_csv_name lower (get_city_name title file)) /\
     (month = ALL \/ (1 <= month <= 6)%Z) /\
     (day = ALL \/ (0 <= day <= 6)%Z) /\
     (month = ALL \/ day = ALL)).
Proof.
  unfold get_filters.
  destruct (List.length (create_city_csv_list isfile listdir project_path) =? 0)%nat.
  { simpl. split; [discriminate|]. split; [exists 0; split; [lia|reflexivity]|discriminate]. }
  set (cities := map (get_city_name title)
                     (create_city_csv_list isfile listdir project_path)).
  destruct (show_prompt_reads lower cities ACRONYMN "Would you like to see data for" stdin)
    as (n1 & Hn1 & Hs1).
  destruct (show_prompt lower cities ACRONYMN "Would you like to see data for" stdin)
    as [[city|e] stdin1] eqn:E1; simpl in Hs1;
    [|simpl; split; [discriminate|]; split; [exists n1; split; [lia|exact Hs1]|discriminate]].
  assert (Hcity : exists file, In file (listdir project_path) /\
                    is_csv_file isfile file = true /\ city = get_city_name title file).
  { apply show_prompt_selected in E1. unfold cities in E1.
    apply in_map_iff in E1 as (file & <- & Hfile).
    unfold create_city_csv_list in Hfile. apply filter_In in Hfile as [Hin Hcsv]. eauto. }
  destruct (show_prompt_reads lower ["month"; "day"; "not at all"] PROPER_NAME
              "Would you like to filter the data by" stdin1) as (n2 & Hn2 & Hs2).
  destruct (show_prompt lower ["month"; "day"; "not at all"] PROPER_NAME
              "Would you like to filter the data by" stdin1)
    as [[date_filter|e] stdin2] eqn:E2; simpl in Hs2.
  2:{ simpl. split; [discriminate|]. split; [|discriminate].
      destruct (skipn_skipn_le 3 3 n1 n2 stdin stdin1 stdin2) as (k & Hk & ->); auto.
      exists k. split; [lia|reflexivity]. }
  destruct (skipn_skipn_le 3 3 n1 n2 stdin stdin1 stdin2) as (k & Hk & Hs12); auto.
  destruct (String.eqb date_filter "month"); [|destruct (String.eqb date_filter "day")].
  - destruct (period_months lower "Which month -" stdin2)
      as ((n3 & Hn3 & Hs3) & Hrange & Hnoval).
    destruct (period lower MONTHS 1 "Which month -" stdin2) as [[month|r] stdin3];
      simpl in *.
    + split; [discriminate|]. split.
      * destruct (skipn_skipn_le 6 3 k n3 stdin stdin2 stdin3) as (k' & Hk' & ->); auto.
        exists k'. split; [lia|reflexivity].
      * intros csv month' day [= <- <- <-]. destruct Hcity as (file & Hin & Hcsv & ->).
        split; [eauto|]. split; [now apply Hrange|]. split; [now left|now right].
    + split; [intros item [= ->]; now apply (Hnoval item)|]. split; [|discriminate].
      destruct (skipn_skipn_le 6 3 k n3 stdin stdin2 stdin3) as (k' & Hk' & ->); auto.
      exists k'. split; [lia|reflexivity].
  - destruct (period_weekdays lower "Which day -" stdin2)
      as ((n3 & Hn3 & Hs3) & Hrange & Hnoval).
    destruct (period lower WEEKDAYS 0 "Which day -" stdin2) as [[day|r] stdin3];
      simpl in *.
    + split; [discriminate|]. split.
      * destruct (skipn_skipn_le 6 3 k n3 stdin stdin2 stdin3) as (k' & Hk' & ->); auto.
        exists k'. split; [lia|reflexivity].
      * intros csv month day' [= <- <- <-]. destruct Hcity as (file & Hin & Hcsv & ->).
        split; [eauto|]. split; [now left|]. split; [now apply Hrange|now left].
    + split; [intros item [= ->]; now apply (Hnoval item)|]. split; [|discriminate].
      destruct (skipn_skipn_le 6 3 k n3 stdin stdin2 stdin3) as (k' & Hk' & ->); auto.
      exists k'. split; [lia|reflexivity].
  - simpl. split; [discriminate|]. split; [exists k; split; [lia|exact Hs12]|].
    intros csv month day [= <- <- <-]. destruct Hcity as (file & Hin & Hcsv & ->).
    split; [eauto|]. split; [now left|]. split; now left.
Qed.

(** X7.  [get_filters] never raises [ValueError] from its [index] calls and
    reads at most nine lines.  When it returns, the file name is
    [get_csv_name] of the city name of one of the CSV files listed, the month
    is [ALL] or 1 to 6, the day is [ALL] or 0 to 6, and at most one of the
    two is not [ALL]. *)
Theorem get_filters_result (lower title : string -> string) (isfile : string -> bool)
    (listdir : string -> list string) (dataset project_path : string)
    (stdin : list string) :
  (forall item,
     fst (get_filters lower title isfile listdir dataset project_path stdin) <>
     Raised (RaiseValueError item)) /\
  (exists n, n <= 9 /\
     snd (get_filters lower title isfile listdir dataset project_path stdin) =
     skipn n stdin) /\
  (forall csv month day,
     fst (get_filters lower title isfile listdir dataset project_path stdin) =
       Return (csv, month, day) ->
     (exists file, In file (listdir project_path) /\ is_csv_file isfile file = true /\
                   csv = get_csv_name lower (get_city_name title file)) /\
     (month = ALL \/ (1 <= month <= 6)%Z) /\
     (day = ALL \/ (0 <= day <= 6)%Z) /\
     (month = ALL \/ day = ALL)).
Proof.
  exact (get_filters_cases lower title isfile listdir dataset project_path stdin).
Qed.

(** X10.  With ASCII file names whose part before the extension has no
    upper-case letter and no space, the file name [get_filters] returns is one
    of the CSV files that were listed. *)
Theorem get_filters_returns_listed_file (isfile : string -> bool)
    (listdir : string -> list string) (dataset project_path : string)
    (stdin : list string) (csv : string) (month day : Z) :
  (forall file, In file (listdir project_path) -> is_csv_file isfile file = true ->
     is_ascii file /\
     Forall (fun c => is_upper c = false /\ c <> " "%char)
            (list_ascii_of_string (drop_last 4 file))) ->
  fst (get_filters ascii_lower ascii_title isfile listdir dataset project_path stdin) =
    Return (csv, month, day) ->
  In csv (create_city_csv_list isfile listdir project_path).
Proof.
  intros Hfiles Hret.
  destruct (get_filters_cases ascii_lower ascii_title isfile listdir dataset
              project_path stdin) as (_ & _ & H).
  destruct (H csv month day Hret) as ((file & Hin & Hcsv & ->) & _).
  destruct (Hfiles file Hin Hcsv) as [_ Hbase].
  assert (Hfile : file = (drop_last 4 file ++ ".csv")%string).
  { unfold is_csv_file in Hcsv. apply andb_true_iff in Hcsv as [_ Hext].
    apply String.eqb_eq in Hext. unfold drop_last. unfold last_chars in Hext.
    rewrite <- Hext. symmetry. apply slice_to_slice_from. }
  unfold get_csv_name, get_city_name, ascii_title.
  rewrite (lower_replace_title _ _ Hbase), <- Hfile.
  unfold create_city_csv_list. apply filter_In. now split.
Qed.

Lemma get_filters_returns_listed_file_witness :
  In "new_york_city.csv"
     (create_city_csv_list (fun _ => true)
        (fun _ => ["chicago.csv"; "new_york_city.csv"; "notes.txt"]) ".").
Proof.
  apply (get_filters_returns_listed_file (fun _ => true)
           (fun _ => ["chicago.csv"; "new_york_city.csv"; "notes.txt"])
           "US bikeshare" "." ["nyc"; "M"; "x"; "mar"; "left"]
           "new_york_city.csv" 3%Z ALL).
  - intros file [<-|[<-|[<-|[]]]] Hcsv; try discriminate Hcsv;
      (split; repeat constructor; discriminate).
  - reflexivity.
Defined.

(** X8.  With no CSV file or a single CSV file in the directory,
    [get_filters] raises before reading a line: the exception of the source
    for no file, and for one file what [show_prompt] raises on a single
    name. *)
Theorem get_filters_needs_two_files (lower title : string -> string)
    (isfile : string -> bool) (listdir : string -> list string)
    (dataset project_path : string) (stdin : list string) :
  List.length (create_city_csv_list isfile listdir project_path) < 2 ->
  exists e,
    get_filters lower title isfile listdir dataset project_path stdin =
      (Raised (Raise e), stdin) /\
    (create_city_csv_list isfile listdir project_path = [] ->
     e = Exception "No CSVs containing statistical data for a city were found").
Proof.
  intros Hlen. unfold get_filters.
  destruct (create_city_csv_list isfile listdir project_path) as [|file files] eqn:E.
  - simpl. eexists. split; [reflexivity|auto].
  - simpl (List.length _ =? 0)%nat. cbv iota.
    destruct (show_prompt_short_list lower (map (get_city_name title) (file :: files))
                ACRONYMN "Would you like to see data for" stdin) as (e & -> & _).
    + now rewrite length_map.
    + exists e. split; [reflexivity|discriminate].
Qed.

Lemma get_filters_needs_two_files_witness :
  exists e,
    get_filters ascii_lower ascii_title (fun _ => true)
      (fun _ => ["chicago.csv"; "notes.txt"]) "US bikeshare" "." ["c"; "month"] =
      (Raised (Raise e), ["c"; "month"]) /\
    (create_city_csv_list (fun _ => true) (fun _ => ["chicago.csv"; "notes.txt"]) "." = [] ->
     e = Exception "No CSVs containing statistical data for a city were found").
Proof.
  apply (get_filters_needs_two_files ascii_lower ascii_title (fun _ => true)
           (fun _ => ["chicago.csv"; "notes.txt"]) "US bikeshare" "." ["c"; "month"]).
  simpl. lia.
Defined.

Example get_filters_scenario :
  get_filters ascii_lower ascii_title (fun _ => true)
    (fun _ => ["chicago.csv"; "new_york_city.csv"; "washington.csv"])
    "US bikeshare" "." ["nyc"; "M"; "x"; "mar"; "left"] =
  (Return ("new_york_city.csv", 3%Z, ALL), ["left"]).
Proof. reflexivity. Qed.

(** ** Names that are prefixes of earlier names *)

Lemma tidy_nil : tidy [].
Proof.
  constructor; unfold is_key; simpl; try discriminate.
  intros k l H. now contradiction H.
Qed.

Lemma is_key_dict_set (k k' : string) (v : option string) (d : dict (option string)) :
  is_key k (dict_set k' v d) <-> k = k' \/ is_key k d.
Proof.
  unfold is_key. rewrite dict_get_set. destruct (String.eqb k' k) eqn:E.
  - apply String.eqb_eq in E as ->. split; [now left|discriminate].
  - apply String.eqb_neq in E. split; [now right|]. intros [->|H]; [contradiction|exact H].
Qed.

Lemma passed_is_key (name : string) (length l : nat) (d : dict (option string)) :
  passed name length d -> 1 <= l < length -> is_key (slice_to l name) d.
Proof. intros H Hl. unfold is_key. destruct (H l Hl) as [-> | ->]; discriminate. Qed.

Lemma startswith_slices (k s : string) (l : nat) :
  startswith k s = true -> l <= String.length k ->
  startswith (slice_to l s) k = true.
Proof.
  intros H Hl. rewrite <- (startswith_slice_eq k s l H Hl). apply startswith_slice_to.
Qed.

Section Clash.
Variable name : string.
Variable length : nat.
Variable d : dict (option string).
Variable previous : string.
Hypothesis bounds : 1 <= length <= String.length name.
Hypothesis d_tidy : tidy d.
Hypothesis d_passed : passed name length d.
Hypothesis clash : dict_get (slice_to length name) d = Some (Some previous).

(** The dictionary after the clash: the entry is marked, its holder moved. *)
Lemma clash_lookup (k : string) :
  dict_get k (dict_set (slice_to (length + 1) previous) (Some previous)
                (dict_set (slice_to length name) None d)) =
  if string_dec previous (slice_to length name) then dict_get k d
  else if String.eqb (slice_to (length + 1) previous) k then Some (Some previous)
       else if String.eqb (slice_to length name) k then Some None
            else dict_get k d.
Proof.
  rewrite !dict_get_set.
  destruct (string_dec previous (slice_to length name)) as [Heq|Hne]; [|reflexivity].
  assert (Hk1 : slice_to (length + 1) previous = slice_to length name).
  { rewrite Heq at 1. rewrite slice_to_slice_to.
    replace (Nat.min (length + 1) length) with length by lia. reflexivity. }
  rewrite Hk1. destruct (String.eqb (slice_to length name) k) eqn:E; [|reflexivity].
  apply String.eqb_eq in E as <-. now rewrite clash, Heq.
Qed.

Lemma clash_room :
  previous <> slice_to length name ->
  length < String.length previous /\
  slice_to length previous = slice_to length name /\
  ~ is_key (slice_to (length + 1) previous) d.
Proof.
  intros Hne. destruct d_tidy as [Hclosed Hprefix Hroom].
  destruct (Hprefix _ _ clash) as [_ Hpre].
  assert (Hk0 : String.length (slice_to length name) = length)
    by (apply slice_to_length_le; lia).
  assert (Hlen : length < String.length previous).
  { destruct (Nat.lt_ge_cases length (String.length previous)) as [H|H]; [exact H|].
    exfalso. apply Hne. symmetry. apply startswith_same_length; [exact Hpre|lia]. }
  assert (Hsl : slice_to length previous = slice_to length name).
  { apply startswith_slice in Hpre. now rewrite Hk0 in Hpre. }
  repeat split; auto. intros Hkey.
  assert (Heq : slice_to (length + 1) previous = slice_to length name).
  { apply (Hroom _ _ _ clash); auto.
    apply startswith_slice. rewrite Hk0, slice_to_slice_to.
    replace (Nat.min length (length + 1)) with length by lia. exact Hsl. }
  apply (f_equal String.length) in Heq.
  rewrite slice_to_length_le, Hk0 in Heq; lia.
Qed.

Lemma clash_tidy :
  tidy (dict_set (slice_to (length + 1) previous) (Some previous)
          (dict_set (slice_to length name) None d)).
Proof.
  set (k0 := slice_to length name) in *.
  set (k1 := slice_to (length + 1) previous).
  set (d' := dict_set k1 (Some previous) (dict_set k0 None d)).
  assert (Hlook : forall k, dict_get k d' =
            if string_dec previous k0 then dict_get k d
            else if String.eqb k1 k then Some (Some previous)
                 else if String.eqb k0 k then Some None else dict_get k d)
    by exact clash_lookup.
  destruct (string_dec previous k0) as [Heq|Hne].
  { destruct d_tidy as [Hclosed Hprefix Hroom].
    constructor; unfold is_key in *; intros *; rewrite ?Hlook; eauto. }
  destruct (clash_room Hne) as (Hlen & Hsl & Hfresh). fold k1 in Hfresh.
  destruct d_tidy as [Hclosed Hprefix Hroom].
  assert (Hk0 : String.length k0 = length) by (apply slice_to_length_le; lia).
  assert (Hk1 : String.length k1 = length + 1) by (apply slice_to_length_le; lia).
  assert (Hk0k1 : startswith k0 k1 = true).
  { apply startswith_slice. rewrite Hk0. unfold k1. rewrite slice_to_slice_to.
    replace (Nat.min length (length + 1)) with length by lia. exact Hsl. }
  assert (Hk0key : is_key k0 d) by (unfold is_key; rewrite clash; discriminate).
  assert (Hkeys : forall k, is_key k d' <-> k = k1 \/ is_key k d).
  { intros k. unfold d'. rewrite !is_key_dict_set. split.
    - intros [H|[H|H]]; auto. subst k. now right.
    - intros [H|H]; auto. }
  assert (Hlive : forall k v, dict_get k d' = Some (Some v) ->
            (k = k1 /\ v = previous) \/
            (k <> k1 /\ k <> k0 /\ dict_get k d = Some (Some v))).
  { intros k v. rewrite Hlook.
    destruct (String.eqb k1 k) eqn:E1.
    - apply String.eqb_eq in E1 as <-. intros [= <-]. now left.
    - apply String.eqb_neq in E1. destruct (String.eqb k0 k) eqn:E0; [discriminate|].
      apply String.eqb_neq in E0. intros H. right. repeat split; auto. }
  constructor.
  - intros k l Hk Hl. apply Hkeys. apply Hkeys in Hk as [->|Hk].
    + destruct (Nat.eq_dec l (length + 1)) as [->|Hnl].
      * left. unfold k1. rewrite slice_to_slice_to. f_equal. lia.
      * right. rewrite <- (startswith_slice_eq k0 k1 l Hk0k1) by lia.
        apply Hclosed; [exact Hk0key|lia].
    + right. now apply Hclosed.
  - intros k v H. destruct (Hlive k v H) as [[-> ->]|(_ & _ & Hd)]; [|now apply Hprefix].
    split; [apply nonempty_length; lia|apply startswith_slice_to].
  - intros k v k' H Hkv Hk' Hpre.
    destruct (Hlive k v H) as [[-> ->]|(Hnk1 & Hnk0 & Hd)].
    + apply Hkeys in Hk' as [->|Hk']; [reflexivity|].
      assert (k' = k0)
        by (apply (Hroom _ _ _ clash); auto; eapply startswith_trans; eauto).
      subst k'. apply startswith_length in Hpre. lia.
    + apply Hkeys in Hk' as [->|Hk']; [|now apply (Hroom k v k')].
      exfalso. apply Hnk0. symmetry. apply (Hroom k v k0 Hd Hkv Hk0key).
      assert (Hkl : String.length k <= length).
      { pose proof (startswith_length _ _ Hpre) as Hl'.
        destruct (Nat.eq_dec (String.length k) (length + 1)) as [Heq|Hn]; [|lia].
        exfalso. apply Hnk1. apply startswith_same_length; [exact Hpre|lia]. }
      apply startswith_slice.
      rewrite (startswith_slice_eq k0 k1 (String.length k) Hk0k1) by lia.
      now apply startswith_slice.
Qed.

Lemma clash_passed :
  passed name (S length)
    (dict_set (slice_to (length + 1) previous) (Some previous)
       (dict_set (slice_to length name) None d)).
Proof.
  intros l Hl. rewrite clash_lookup.
  destruct (string_dec previous (slice_to length name)) as [Heq|Hne].
  - destruct (Nat.eq_dec l length) as [->|Hnl]; [|apply d_passed; lia].
    right. now rewrite clash, Heq.
  - destruct (clash_room Hne) as (Hlen & _ & _).
    destruct (String.eqb (slice_to (length + 1) previous) (slice_to l name)) eqn:E1.
    + apply String.eqb_eq in E1. apply (f_equal String.length) in E1.
      rewrite !slice_to_length_le in E1; lia.
    + destruct (String.eqb (slice_to length name) (slice_to l name)) eqn:E0; [now left|].
      destruct (Nat.eq_dec l length) as [->|Hnl];
        [now rewrite String.eqb_refl in E0|apply d_passed; lia].
Qed.

Lemma clash_holds (v : string) :
  holds v (dict_set (slice_to (length + 1) previous) (Some previous)
             (dict_set (slice_to length name) None d)) <-> holds v d.
Proof.
  unfold holds. split.
  - intros [k Hk]. rewrite clash_lookup in Hk.
    destruct (string_dec previous (slice_to length name)) as [Heq|Hne]; [eauto|].
    destruct (String.eqb (slice_to (length + 1) previous) k);
      [injection Hk as <-; eauto|].
    destruct (String.eqb (slice_to length name) k); [discriminate|eauto].
  - intros [k Hk].
    destruct (string_dec v previous) as [->|Hv].
    + exists (slice_to (length + 1) previous). apply dict_get_set_eq.
    + exists k. rewrite clash_lookup.
      destruct (string_dec previous (slice_to length name)) as [Heq|Hne]; [exact Hk|].
      destruct (clash_room Hne) as (_ & _ & Hfresh).
      destruct (String.eqb (slice_to (length + 1) previous) k) eqn:E1.
      * apply String.eqb_eq in E1 as <-. exfalso. apply Hfresh. unfold is_key.
        rewrite Hk. discriminate.
      * destruct (String.eqb (slice_to length name) k) eqn:E0; [|exact Hk].
        apply String.eqb_eq in E0 as <-. congruence.
Qed.
End Clash.

Lemma register_tidy (name : string) (length : nat) (d : dict (option string)) :
  1 <= length <= String.length name -> tidy d -> passed name length d ->
  dict_get (slice_to length name) d = None ->
  tidy (dict_set (slice_to length name) (Some name) d).
Proof.
  intros Hb [Hclosed Hprefix Hroom] Hpassed Hfree.
  set (kx := slice_to length name) in *.
  assert (Hkx : String.length kx = length) by (apply slice_to_length_le; lia).
  constructor.
  - intros k l Hk Hl. apply is_key_dict_set. apply is_key_dict_set in Hk as [->|Hk].
    + destruct (Nat.eq_dec l length) as [->|Hnl].
      * left. unfold kx. rewrite slice_to_slice_to. f_equal. lia.
      * right. unfold kx. rewrite slice_to_slice_to.
        replace (Nat.min l length) with l by lia.
        apply (passed_is_key _ _ _ _ Hpassed). lia.
    + right. now apply Hclosed.
  - intros k v. rewrite dict_get_set. destruct (String.eqb kx k) eqn:E.
    + apply String.eqb_eq in E as <-. intros [= <-].
      split; [apply nonempty_length; lia|apply startswith_slice_to].
    + apply Hprefix.
  - intros k v k'. rewrite dict_get_set. destruct (String.eqb kx k) eqn:E.
    + apply String.eqb_eq in E as <-. intros _ _ Hk' Hpre.
      apply is_key_dict_set in Hk' as [->|Hk']; [reflexivity|].
      exfalso. apply (Hclosed k' length) in Hk';
        [|apply startswith_length in Hpre; lia].
      apply startswith_slice in Hpre. rewrite Hkx in Hpre.
      rewrite Hpre in Hk'. now apply Hk'.
    + apply String.eqb_neq in E. intros Hd Hkv Hk' Hpre.
      apply is_key_dict_set in Hk' as [->|Hk']; [|now apply (Hroom k v k')].
      exfalso.
      assert (Hl : String.length k < length).
      { pose proof (startswith_length _ _ Hpre) as Hl'.
        destruct (Nat.eq_dec (String.length k) length) as [Heq|Hn]; [|lia].
        exfalso. apply E. symmetry. apply startswith_same_length; [exact Hpre|lia]. }
      assert (Hk : k = slice_to (String.length k) name).
      { apply startswith_slice in Hpre. unfold kx in Hpre.
        rewrite slice_to_slice_to in Hpre.
        replace (Nat.min (String.length k) length) with (String.length k) in Hpre by lia.
        now symmetry. }
      destruct (Hprefix _ _ Hd) as [Hne _]. apply nonempty_length in Hne.
      destruct (Hpassed (String.length k)) as [H|H]; [lia| |]; rewrite <- Hk in H;
        congruence.
Qed.

(** The search for one plain name keeps the dictionary tidy, keeps every
    name that was held and every key, and ends with the name held or with all
    its non-empty prefixes as keys. *)
Lemma prefix_loop_tidy (name : string) (remaining length : nat)
    (d : dict (option string)) :
  remaining + length = S (String.length name) -> 1 <= length ->
  tidy d -> passed name length d ->
  tidy (prefix_loop remaining length name d) /\
  (forall v, holds v d -> holds v (prefix_loop remaining length name d)) /\
  (forall k, is_key k d -> is_key k (prefix_loop remaining length name d)) /\
  (holds name (prefix_loop remaining length name d) \/
   forall l, 1 <= l <= String.length name ->
     is_key (slice_to l name) (prefix_loop remaining length name d)).
Proof.
  revert length d. induction remaining as [|n IH]; intros length d Hsum Hl Htidy Hpassed.
  - simpl. refine (conj Htidy (conj _ (conj _ _))); auto. right. intros l Hb.
    apply (passed_is_key _ _ _ _ Hpassed). lia.
  - rewrite prefix_loop_S.
    destruct (dict_get (slice_to length name) d) as [[previous|]|] eqn:E.
    + assert (Hb : 1 <= length <= String.length name) by lia.
      destruct (IH (S length) _ ltac:(lia) ltac:(lia)
                  (clash_tidy name length d previous Hb Htidy E)
                  (clash_passed name length d previous Hb Htidy Hpassed E))
        as (H1 & H2 & H3 & H4).
      refine (conj H1 (conj _ (conj _ H4))).
      * intros v Hv. apply H2.
        now apply (clash_holds name length d previous Hb Htidy E).
      * intros k Hk. apply H3. unfold is_key. now do 2 apply dict_set_keeps_keys.
    + apply IH; auto; [lia|].
      intros l Hb. destruct (Nat.eq_dec l length) as [->|Hn]; [now left|].
      apply Hpassed. lia.
    + refine (conj _ (conj _ (conj _ _))).
      * apply register_tidy; auto. lia.
      * intros v [k Hk]. exists k. rewrite dict_get_set.
        destruct (String.eqb (slice_to length name) k) eqn:Ek; [|exact Hk].
        apply String.eqb_eq in Ek as <-. congruence.
      * intros k Hk. unfold is_key. now apply dict_set_keeps_keys.
      * left. exists (slice_to length name). apply dict_get_set_eq.
Qed.

(** A name that is a proper prefix of a name searched before finds every one
    of its prefixes taken: the search ends without holding it. *)
Lemma prefix_loop_blocked (name longer : string) (remaining length : nat)
    (d : dict (option string)) :
  remaining + length = S (String.length name) -> 1 <= length ->
  tidy d -> passed name length d ->
  startswith name longer = true -> name <> longer ->
  ~ holds name d ->
  (holds longer d \/
   forall l, 1 <= l <= String.length name -> is_key (slice_to l name) d) ->
  ~ holds name (prefix_loop remaining length name d) /\
  forall l, 1 <= l <= String.length name ->
    is_key (slice_to l name) (prefix_loop remaining length name d).
Proof.
  intros Hsum Hl Htidy Hpassed Hpre Hne. revert length d Hsum Hl Htidy Hpassed.
  assert (Hlong : String.length name < String.length longer).
  { pose proof (startswith_length _ _ Hpre) as H.
    destruct (Nat.eq_dec (String.length name) (String.length longer)) as [Heq|]; [|lia].
    exfalso. apply Hne. apply startswith_same_length; [exact Hpre|lia]. }
  induction remaining as [|n IH]; intros length d Hsum Hl Htidy Hpassed Hno Hcase.
  - simpl. split; [exact Hno|]. intros l Hb.
    apply (passed_is_key _ _ _ _ Hpassed). lia.
  - assert (Hb : 1 <= length <= String.length name) by lia.
    assert (Hkey : is_key (slice_to length name) d).
    { destruct Hcase as [[kn Hkn]|Hall]; [|now apply Hall].
      destruct (tidy_prefix d Htidy _ _ Hkn) as [Hkne Hknpre].
      apply nonempty_length in Hkne.
      destruct (Nat.le_gt_cases length (String.length kn)) as [Hle|Hgt].
      - rewrite (startswith_slice_eq name longer length Hpre) by lia.
        rewrite <- (startswith_slice_eq kn longer length Hknpre Hle).
        apply (tidy_closed d Htidy); [|lia].
        unfold is_key. rewrite Hkn. discriminate.
      - exfalso.
        assert (Hk : kn = slice_to (String.length kn) name).
        { rewrite (startswith_slice_eq name longer _ Hpre) by lia.
          symmetry. now apply startswith_slice. }
        destruct (Hpassed (String.length kn)) as [H|H]; [lia| |];
          rewrite <- Hk in H; [congruence|].
        assert (longer = kn) by congruence. subst longer. lia. }
    rewrite prefix_loop_S.
    destruct (dict_get (slice_to length name) d) as [[previous|]|] eqn:E.
    + apply IH.
      * lia.
      * lia.
      * exact (clash_tidy name length d previous Hb Htidy E).
      * exact (clash_passed name length d previous Hb Htidy Hpassed E).
      * intros H. apply Hno.
        now apply (clash_holds name length d previous Hb Htidy E).
      * destruct Hcase as [H|H].
        -- left. now apply (clash_holds name length d previous Hb Htidy E).
        -- right. intros l Hlb. unfold is_key. do 2 apply dict_set_keeps_keys.
           now apply H.
    + apply IH; auto; [lia|].
      intros l Hlb. destruct (Nat.eq_dec l length) as [->|Hn]; [now left|].
      apply Hpassed. lia.
    + now contradiction Hkey.
Qed.

(** Once all the prefixes of a name are keys, a further search for it
    registers nothing new. *)
Lemma prefix_loop_taken (name other : string) (remaining length : nat)
    (d : dict (option string)) :
  remaining + length = S (String.length name) ->
  (forall l, length <= l <= String.length name -> is_key (slice_to l name) d) ->
  registered other (prefix_loop remaining length name d) -> registered other d.
Proof.
  revert length d. induction remaining as [|n IH]; intros length d Hsum Hkeys; [auto|].
  rewrite prefix_loop_S.
  destruct (dict_get (slice_to length name) d) as [[previous|]|] eqn:E.
  - intros H. apply IH in H.
    + apply registered_dict_set in H as [H|H].
      * injection H as ->. exists (slice_to length name). now apply dict_get_in.
      * apply registered_dict_set in H as [H|H]; [discriminate|exact H].
    + lia.
    + intros l Hl. unfold is_key. do 2 apply dict_set_keeps_keys. apply Hkeys. lia.
  - apply IH; [lia|]. intros l Hl. apply Hkeys. lia.
  - exfalso. apply (Hkeys length); [lia|exact E].
Qed.

Lemma register_name_keeps_keys (name k : string) (d : dict (option string)) :
  is_key k d -> is_key k (register_name name d).
Proof.
  unfold is_key, register_name. intros H.
  destruct (negb (find "not" name =? -1)%Z);
    [|destruct (negb (find "all" name =? -1)%Z)].
  - now apply dict_set_keeps_keys.
  - now apply dict_set_keeps_keys.
  - now apply prefix_loop_keeps_keys.
Qed.

Lemma passed_start (name : string) (d : dict (option string)) : passed name 1 d.
Proof. intros l Hl. lia. Qed.

(** The dictionary of a list without catch-all names is tidy, and each name
    of the list is held or has all its non-empty prefixes as keys. *)
Lemma potential_tidy (names : list string) :
  (forall name, In name names -> ~ contains "not" name /\ ~ contains "all" name) ->
  tidy (potential names) /\
  forall name, In name names ->
    holds name (potential names) \/
    forall l, 1 <= l <= String.length name -> is_key (slice_to l name) (potential names).
Proof.
  induction names as [|y names IH] using rev_ind; intros Hplain.
  - split; [exact tidy_nil|contradiction].
  - destruct IH as [Htidy Hnames].
    { intros name Hin. apply Hplain, in_or_app. now left. }
    rewrite potential_snoc.
    destruct (Hplain y) as [Hnot Hall]; [apply in_or_app; right; now left|].
    rewrite (register_name_plain y _ Hnot Hall).
    destruct (prefix_loop_tidy y (String.length y) 1 (potential names)
                ltac:(lia) ltac:(lia) Htidy (passed_start _ _))
      as (H1 & H2 & H3 & H4).
    split; [exact H1|]. intros name Hin. apply in_app_or in Hin as [Hin|[<-|[]]].
    + destruct (Hnames name Hin) as [H|H]; [left; now apply H2|].
      right. intros l Hl. apply H3. now apply H.
    + exact H4.
Qed.

Lemma holds_registered (name : string) (d : dict (option string)) :
  holds name d -> registered name d.
Proof. intros [k Hk]. exists k. now apply dict_get_in. Qed.

Lemma registered_holds (name : string) (d : dict (option string)) :
  NoDup (keys d) -> registered name d -> holds name d.
Proof. intros Hnd [k Hk]. exists k. now apply in_dict_get. Qed.

(** After the name has been searched in vain, nothing registers it. *)
Lemma fold_register_taken (name : string) (rest : list string)
    (d : dict (option string)) :
  ~ contains "not" name -> ~ contains "all" name ->
  ~ registered name d ->
  (forall l, 1 <= l <= String.length name -> is_key (slice_to l name) d) ->
  ~ registered name (fold_left (fun d name => register_name name d) rest d).
Proof.
  intros Hnot Hall. revert d. induction rest as [|y rest IH]; intros d Hno Hkeys; [exact Hno|].
  simpl. apply IH.
  - destruct (string_dec y name) as [->|Hy].
    + rewrite (register_name_plain name _ Hnot Hall). intros H. apply Hno.
      apply (prefix_loop_taken name name (String.length name) 1 d); [lia| |exact H].
      intros l Hl. now apply Hkeys.
    + intros H. apply registered_register_name in H as [H|H]; [congruence|auto].
  - intros l Hl. apply register_name_keeps_keys. now apply Hkeys.
Qed.

Lemma potential_prefix_unregistered (before after : list string) (name : string) :
  (forall other, In other (before ++ [name]) ->
     ~ contains "not" other /\ ~ contains "all" other) ->
  ~ In name before ->
  (name = EmptyString \/ exists longer, In longer before /\ startswith name longer = true) ->
  ~ registered name (potential (before ++ name :: after)).
Proof.
  intros Hplain Hfresh Hcase.
  destruct (Hplain name) as [Hnot Hall]; [apply in_or_app; right; now left|].
  destruct (potential_tidy before) as [Htidy Hnames].
  { intros other Hin. apply Hplain, in_or_app. now left. }
  assert (Hno : ~ registered name (potential before))
    by (intros H; now apply registered_potential in H).
  replace (before ++ name :: after) with ((before ++ [name]) ++ after)
    by (now rewrite <- app_assoc).
  rewrite potential_app, potential_snoc.
  apply fold_register_taken; auto; rewrite (register_name_plain name _ Hnot Hall).
  - destruct Hcase as [->|(longer & Hin & Hpre)]; [exact Hno|].
    intros H.
    apply registered_holds in H;
      [|apply NoDup_keys_prefix_loop, NoDup_keys_potential].
    revert H.
    apply (prefix_loop_blocked name longer (String.length name) 1 (potential before));
      auto using passed_start; try lia.
    + intros ->. contradiction.
    + intros H. apply Hno. now apply holds_registered.
    + destruct (Hnames longer Hin) as [H|H]; [now left|right].
      intros l Hl. rewrite (startswith_slice_eq name longer l Hpre) by lia.
      apply H. apply startswith_length in Hpre. lia.
  - destruct Hcase as [->|(longer & Hin & Hpre)]; [simpl; intros l Hl; lia|].
    apply (prefix_loop_blocked name longer (String.length name) 1 (potential before));
      auto using passed_start; try lia.
    + intros ->. contradiction.
    + intros H. apply Hno. now apply holds_registered.
    + destruct (Hnames longer Hin) as [H|H]; [now left|right].
      intros l Hl. rewrite (startswith_slice_eq name longer l Hpre) by lia.
      apply H. apply startswith_length in Hpre. lia.
Qed.

(** X9. In a list whose names up to [name] contain neither [not] nor [all],
    a name that is empty, or that first occurs after a name it is a prefix
    of, is never registered, whatever follows it: [generate_name_prompts]
    raises [KeyError] for a name of the list. *)
Theorem generate_name_prompts_prefix_after_longer
    (before after : list string) (name : string) :
  (forall other, In other (before ++ [name]) ->
     ~ contains "not" other /\ ~ contains "all" other) ->
  ~ In name before ->
  (name = EmptyString \/ exists longer, In longer before /\ startswith name longer = true) ->
  ~ registered name (potential (before ++ name :: after)) /\
  exists missing, In missing (before ++ name :: after) /\
    generate_name_prompts (before ++ name :: after) = Err (KeyError missing).
Proof.
  intros Hplain Hfresh Hcase.
  pose proof (potential_prefix_unregistered before after name Hplain Hfresh Hcase) as Hno.
  split; [exact Hno|].
  destruct (generate_name_prompts_unregistered (before ++ name :: after))
    as (missing & Hin & _ & Herr).
  - exists name. split; [|exact Hno]. apply in_or_app. right. now left.
  - now exists missing.
Qed.

Lemma generate_name_prompts_prefix_after_longer_witness :
  ~ registered "sun" (potential (["monday"; "sunday"] ++ "sun" :: ["tuesday"])) /\
  exists missing, In missing (["monday"; "sunday"] ++ "sun" :: ["tuesday"]) /\
    generate_name_prompts (["monday"; "sunday"] ++ "sun" :: ["tuesday"]) =
      Err (KeyError missing).
Proof.
  apply (generate_name_prompts_prefix_after_longer ["monday"; "sunday"] ["tuesday"] "sun").
  - intros other [<-|[<-|[<-|[]]]];
      (split; intros H; apply find_contains in H; now apply H).
  - simpl. intuition discriminate.
  - right. exists "sunday". split; [simpl; auto|reflexivity].
Defined.

(** ** Which lists of plain names are abbreviated *)

Lemma named_clash (done : list string) (name previous : string) (length : nat)
    (d : dict (option string)) :
  named done d -> dict_get (slice_to length name) d = Some (Some previous) ->
  named done (dict_set (slice_to (length + 1) previous) (Some previous)
                (dict_set (slice_to length name) None d)).
Proof.
  intros [Hkeys Hheld] E. split.
  - intros k Hk. apply is_key_dict_set in Hk as [->|Hk].
    + exists previous. split; [now apply (Hheld _ _ E)|apply startswith_slice_to].
    + apply is_key_dict_set in Hk as [->|Hk]; apply Hkeys; [|exact Hk].
      unfold is_key. rewrite E. discriminate.
  - intros k v. rewrite !dict_get_set.
    destruct (String.eqb (slice_to (length + 1) previous) k).
    + intros [= <-]. now apply (Hheld _ _ E).
    + destruct (String.eqb (slice_to length name) k); [discriminate|apply Hheld].
Qed.

Lemma named_more (done : list string) (name : string) (d : dict (option string)) :
  named done d -> named (done ++ [name]) d.
Proof.
  intros [Hkeys Hheld]. split.
  - intros k Hk. destruct (Hkeys k Hk) as (n & Hin & Hpre). exists n.
    split; [apply in_or_app; now left|exact Hpre].
  - intros k v H. apply in_or_app. left. now apply (Hheld k v).
Qed.

Lemma prefix_loop_named (done : list string) (name : string) (remaining length : nat)
    (d : dict (option string)) :
  named done d -> named (done ++ [name]) (prefix_loop remaining length name d).
Proof.
  revert length d. induction remaining as [|n IH]; intros length d Hnamed;
    [now apply named_more|].
  rewrite prefix_loop_S.
  destruct (dict_get (slice_to length name) d) as [[previous|]|] eqn:E.
  - apply IH. now apply named_clash.
  - now apply IH.
  - destruct Hnamed as [Hkeys Hheld]. split.
    + intros k Hk. apply is_key_dict_set in Hk as [->|Hk].
      * exists name. split; [apply in_or_app; right; now left|apply startswith_slice_to].
      * destruct (Hkeys k Hk) as (m & Hin & Hpre). exists m.
        split; [apply in_or_app; now left|exact Hpre].
    + intros k v. rewrite dict_get_set.
      destruct (String.eqb (slice_to length name) k).
      * intros [= <-]. apply in_or_app. right. now left.
      * intros H. apply in_or_app. left. now apply (Hheld k v).
Qed.

Lemma potential_named (names : list string) :
  (forall name, In name names -> ~ contains "not" name /\ ~ contains "all" name) ->
  named names (potential names).
Proof.
  induction names as [|y names IH] using rev_ind; intros Hplain.
  - split; [intros k H; now contradiction H|discriminate].
  - rewrite potential_snoc.
    destruct (Hplain y) as [Hnot Hall]; [apply in_or_app; right; now left|].
    rewrite (register_name_plain y _ Hnot Hall). apply prefix_loop_named.
    apply IH. intros name Hin. apply Hplain, in_or_app. now left.
Qed.

(** A non-empty name that no earlier name starts with is registered by its
    search. *)
Lemma prefix_loop_finds (done : list string) (name : string) (remaining length : nat)
    (d : dict (option string)) :
  remaining + length = S (String.length name) -> 1 <= length ->
  name <> EmptyString -> named done d ->
  (forall l, 1 <= l < length -> is_key (slice_to l name) d) ->
  (forall n, In n done -> startswith name n = false) ->
  holds name (prefix_loop remaining length name d).
Proof.
  intros Hsum Hl Hne Hnamed Hpassed Hnew. apply nonempty_length in Hne.
  revert length d Hsum Hl Hnamed Hpassed.
  induction remaining as [|r IH]; intros length d Hsum Hl Hnamed Hpassed.
  - exfalso. destruct Hnamed as [Hkeys _].
    destruct (Hkeys (slice_to (String.length name) name)) as (n & Hin & Hpre).
    + apply Hpassed. lia.
    + rewrite slice_to_all in Hpre by lia. rewrite (Hnew n Hin) in Hpre. discriminate.
  - rewrite prefix_loop_S.
    destruct (dict_get (slice_to length name) d) as [[previous|]|] eqn:E.
    + apply IH; [lia|lia|now apply named_clash|].
      intros l Hb. unfold is_key. do 2 apply dict_set_keeps_keys.
      destruct (Nat.eq_dec l length) as [->|Hn]; [rewrite E; discriminate|].
      apply Hpassed. lia.
    + apply IH; [lia|lia|exact Hnamed|].
      intros l Hb. destruct (Nat.eq_dec l length) as [->|Hn];
        [unfold is_key; rewrite E; discriminate|].
      apply Hpassed. lia.
    + exists (slice_to length name). apply dict_get_set_eq.
Qed.

Lemma shorter_first_front (names : list string) (name : string) :
  shorter_first (names ++ [name]) -> shorter_first names.
Proof.
  intros H before x after longer -> Hin.
  apply (H before x (after ++ [name]) longer); [|exact Hin].
  now rewrite <- app_assoc.
Qed.

Lemma potential_shorter_first (names : list string) :
  plain_names names -> shorter_first names ->
  forall name, In name names -> registered name (potential names).
Proof.
  induction names as [|y names IH] using rev_ind; intros Hplain Horder name Hin;
    [contradiction|].
  assert (Hfront : plain_names names)
    by (intros x Hx; apply Hplain, in_or_app; now left).
  assert (Hfront' : forall x, In x names -> ~ contains "not" x /\ ~ contains "all" x)
    by (intros x Hx; now destruct (Hfront x Hx) as (_ & ? & ?)).
  destruct (Hplain y) as (Hne & Hnot & Hall); [apply in_or_app; right; now left|].
  rewrite potential_snoc, (register_name_plain y _ Hnot Hall).
  apply holds_registered.
  apply in_app_or in Hin as [Hin|[<-|[]]].
  - destruct (potential_tidy names Hfront') as [Htidy _].
    destruct (prefix_loop_tidy y (String.length y) 1 (potential names)
                ltac:(lia) ltac:(lia) Htidy (passed_start _ _)) as (_ & H & _).
    apply H. apply registered_holds; [apply NoDup_keys_potential|].
    apply IH; auto. now apply (shorter_first_front names y).
  - apply (prefix_loop_finds names).
    + lia.
    + lia.
    + exact Hne.
    + now apply potential_named.
    + intros l Hl. lia.
    + intros n Hn. now apply (Horder names y [] n).
Qed.

(** X11.  For distinct, non-empty names without [not] and [all]:
    [generate_name_prompts] returns exactly when no name of the list comes
    after a name it is a prefix of. *)
Theorem generate_name_prompts_returns_iff (names : list string) :
  NoDup names -> plain_names names ->
  ((exists r, generate_name_prompts names = Ok r) <-> shorter_first names).
Proof.
  intros Hnd Hplain. split.
  - intros Hok before x after longer -> Hin.
    destruct (startswith x longer) eqn:Hpre; [exfalso|reflexivity].
    apply (potential_prefix_unregistered before after x).
    + intros other Hother.
      destruct (Hplain other) as (_ & ? & ?); [|now split].
      apply in_app_or in Hother as [H|[<-|[]]]; apply in_or_app; [now left|].
      right. now left.
    + apply NoDup_remove_2 in Hnd. intros H. apply Hnd, in_or_app. now left.
    + right. now exists longer.
    + apply (proj1 (generate_name_prompts_ok_iff _) Hok). apply in_or_app.
      right. now left.
  - intros Horder. apply generate_name_prompts_ok_iff.
    now apply potential_shorter_first.
Qed.

Lemma generate_name_prompts_returns_iff_witness :
  (exists r, generate_name_prompts ["sun"; "monday"; "sunday"] = Ok r) <->
  shorter_first ["sun"; "monday"; "sunday"].
Proof.
  apply (generate_name_prompts_returns_iff ["sun"; "monday"; "sunday"]).
  - repeat constructor; simpl; intuition discriminate.
  - intros name [<-|[<-|[<-|[]]]];
      (split; [discriminate|split; intros H; apply find_contains in H; now apply H]).
Defined.

(** The order decides: the same three names are abbreviated when the short
    one comes first and not when it comes last. *)
Example shorter_first_scenario :
  generate_name_prompts ["sun"; "monday"; "sunday"] =
    Ok (["sun [sun]"; "monday [m]"; "sunday [sund]"],
        [("m", "monday"); ("sun", "sun"); ("sund", "sunday")]) /\
  generate_name_prompts ["monday"; "sunday"; "sun"] = Err (KeyError "sun").
Proof. split; reflexivity. Qed.

(** ** Catch-all names in the returned map *)















